(** * polaris: the [demoGenerate] background job (src/inngest/functions.ts)

    A shallow embedding of the three-step Inngest function: URL extraction
    with [URL_REGEX], the parallel Firecrawl scrape with its aggregation,
    the composition of the final prompt and the generation call.

    JavaScript strings are sequences of UTF-16 code units; a regular
    expression without the [u] flag works on code units, so a string is a
    list of code units here. *)

From Stdlib Require Import String Ascii List NArith Arith Lia Bool Relations.
Import ListNotations.

(* ------------------------------------------------------------------ *)
(** ** JavaScript strings *)

Module JS.

Definition char16 := N.
Definition jsstring := list char16.

(** An ASCII literal of the source as a sequence of code units. *)
Definition lit (s : string) : jsstring :=
  map N_of_ascii (list_ascii_of_string s).

(** The escape [\n] of the source's string and template literals. *)
Definition LF : char16 := 10%N.

(** [\s] of ECMAScript: WhiteSpace and LineTerminator code points. *)
Definition is_whitespace (c : char16) : bool :=
  ((9 <=? c) && (c <=? 13)            (* \t \n \v \f \r *)
   || (c =? 32)                       (* space *)
   || (c =? 160)                      (* U+00A0 *)
   || (c =? 5760)                     (* U+1680 *)
   || ((8192 <=? c) && (c <=? 8202))  (* U+2000 .. U+200A *)
   || (c =? 8232) || (c =? 8233)      (* U+2028 U+2029 *)
   || (c =? 8239)                     (* U+202F *)
   || (c =? 8287)                     (* U+205F *)
   || (c =? 12288)                    (* U+3000 *)
   || (c =? 65279))%N.                (* U+FEFF *)

(** ToBoolean on a string: the empty string is the only falsy one. *)
Definition truthy (s : jsstring) : bool :=
  match s with [] => false | _ :: _ => true end.

(** [a || b] on strings where [a] may be [undefined]. *)
Definition or_else (a : option jsstring) (b : jsstring) : jsstring :=
  match a with
  | Some s => if truthy s then s else b
  | None => b
  end.

(** [a ?? b]: only [null] and [undefined] fall through. *)
Definition nullish {A} (a : option A) (b : A) : A :=
  match a with Some x => x | None => b end.

(** [Array.prototype.filter(Boolean)] on an array of strings: the callback
    is applied to the elements in index order and the kept ones are
    appended to a fresh array. *)
Definition filter_Boolean (xs : list jsstring) : list jsstring :=
  fold_left (fun kept x => if truthy x then kept ++ [x] else kept) xs [].

(** [Array.prototype.join(sep)] on an array of strings: the accumulator [R]
    starts empty; for every index [k], the separator is appended when
    [k > 0], then the element. *)
Fixpoint join_from (sep : jsstring) (k : nat) (xs : list jsstring) (R : jsstring)
  : jsstring :=
  match xs with
  | [] => R
  | x :: xs' =>
      let R1 := match k with 0 => R | S _ => R ++ sep end in
      join_from sep (S k) xs' (R1 ++ x)
  end.

Definition join (sep : jsstring) (xs : list jsstring) : jsstring :=
  join_from sep 0 xs [].

(* ------------------------------------------------------------------ *)
(** ** Regular expressions: the fragment used by [URL_REGEX]

    A backtracking matcher in continuation-passing style, as in the
    ECMAScript pattern semantics: a matcher takes the rest of the input
    and a continuation, and the quantifiers are greedy. *)

Inductive atom :=
| Char (c : char16)     (* a literal character *)
| NotWhite.             (* the class [^\s] *)

Inductive regex :=
| Atom (a : atom)
| Seq (r1 r2 : regex)
| Opt (r : regex)       (* r?  *)
| Plus (a : atom).      (* a+  *)

Definition atom_ok (a : atom) (c : char16) : bool :=
  match a with
  | Char d => (c =? d)%N
  | NotWhite => negb (is_whitespace c)
  end.

Definition cont := jsstring -> option jsstring.

(** [a+], greedy: consume one more character while possible, and give
    characters back to the continuation only when it fails. *)
Fixpoint plus_loop (a : atom) (s : jsstring) (k : cont) : option jsstring :=
  match s with
  | [] => None
  | c :: s' =>
      if atom_ok a c then
        match plus_loop a s' k with
        | Some e => Some e
        | None => k s'
        end
      else None
  end.

Fixpoint matcher (r : regex) (s : jsstring) (k : cont) : option jsstring :=
  match r with
  | Atom a =>
      match s with
      | [] => None
      | c :: s' => if atom_ok a c then k s' else None
      end
  | Seq r1 r2 => matcher r1 s (fun s' => matcher r2 s' k)
  | Opt r1 =>
      match matcher r1 s k with
      | Some e => Some e
      | None => k s
      end
  | Plus a => plus_loop a s k
  end.

(** A match anchored at the head of [s]: the input left after the match. *)
Definition match_here (r : regex) (s : jsstring) : option jsstring :=
  matcher r s (fun e => Some e).

(** RegExpBuiltinExec from [lastIndex] (the head of [s]): the matcher is
    tried at every index up to and including the length of the input.
    The result is the matched text and the input after it. *)
Fixpoint exec (r : regex) (s : jsstring) : option (jsstring * jsstring) :=
  match match_here r s with
  | Some e => Some (firstn (length s - length e) s, e)
  | None =>
      match s with
      | [] => None
      | _ :: s' => exec r s'
      end
  end.

(** The loop of [RegExp.prototype[Symbol.match]] for a global regex:
    [exec] is repeated from the end of the previous match, and after an
    empty match [lastIndex] is advanced by one. [None] means that the
    fuel ran out. *)
Fixpoint match_loop (fuel : nat) (r : regex) (s : jsstring)
  : option (list jsstring) :=
  match fuel with
  | 0 => None
  | S fuel' =>
      match exec r s with
      | None => Some []
      | Some (m, e) =>
          let next :=
            match m, e with
            | [], [] => Some []
            | [], _ :: e' => match_loop fuel' r e'
            | _ :: _, _ => match_loop fuel' r e
            end in
          option_map (cons m) next
      end
  end.

(** [String.prototype.match] with a global regex: [lastIndex] is reset to
    0, all matches are collected, and the result is [null] when there is
    none. The outer option is the fuel, the inner one is [null]. *)
Definition String_match (s : jsstring) (r : regex)
  : option (option (list jsstring)) :=
  match match_loop (S (length s)) r s with
  | None => None
  | Some [] => Some None
  | Some (m :: ms) => Some (Some (m :: ms))
  end.

End JS.
Import JS.

(* ------------------------------------------------------------------ *)
(** ** Promises and the calls to the external providers

    A computation is the sequence of provider calls it has issued together
    with the way its promise settles. A promise may also never settle. *)

Module Async.

Definition error := jsstring.

Inductive outcome (A : Type) :=
| Fulfilled (v : A)
| Rejected (reason : error)
| Pending.

Arguments Fulfilled {A} v.
Arguments Rejected {A} reason.
Arguments Pending {A}.

(** The calls that leave the process. *)
Inductive call :=
| ScrapeCall (url : jsstring) (formats : list jsstring)
| GenerateCall (model : jsstring) (prompt : jsstring).

Definition M (A : Type) : Type := list call * outcome A.

Definition ret {A} (a : A) : M A := ([], Fulfilled a).

(** [const x = await m; k x]: a rejection of [m] is thrown at the [await]
    and, with no [try] around it, rejects the enclosing async function. *)
Definition bind {A B} (m : M A) (k : A -> M B) : M B :=
  match m with
  | (l, Fulfilled a) => let (l', r) := k a in (l ++ l', r)
  | (l, Rejected e) => (l, Rejected e)
  | (l, Pending) => (l, Pending)
  end.

(** Issue one external call whose promise settles as [r]. *)
Definition perform {A} (c : call) (r : outcome A) : M A := ([c], r).

Definition calls {A} (m : M A) : list call := fst m.
Definition settled {A} (m : M A) : outcome A := snd m.

(** [Promise.all]: fulfilled with all the values, in the order of the
    array, once every element is fulfilled; rejected as soon as one
    element is rejected, whatever the others do; pending otherwise. Which
    rejection is delivered when several elements reject depends on the
    order in which they settle; the first one in array order stands for
    it here. *)
Fixpoint all_outcomes {A} (rs : list (outcome A)) : outcome (list A) :=
  match rs with
  | [] => Fulfilled []
  | r :: rs' =>
      match r, all_outcomes rs' with
      | Rejected e, _ => Rejected e
      | _, Rejected e => Rejected e
      | Pending, _ => Pending
      | _, Pending => Pending
      | Fulfilled v, Fulfilled vs => Fulfilled (v :: vs)
      end
  end.

(** [Promise.all(xs.map(f))] for an async [f]: [map] calls [f] on every
    element in index order, so every call is issued before any promise is
    awaited. *)
Fixpoint map_indexed {A B} (f : nat -> A -> B) (k : nat) (xs : list A) : list B :=
  match xs with
  | [] => []
  | x :: xs' => f k x :: map_indexed f (S k) xs'
  end.

Definition Promise_all {A} (ps : list (M A)) : M (list A) :=
  (concat (map calls ps), all_outcomes (map settled ps)).

End Async.
Import Async.

Declare Scope async_scope.
Delimit Scope async_scope with async.
Notation "x <- m ;; k" := (bind m (fun x => k))
  (at level 61, m at next level, right associativity) : async_scope.
Open Scope async_scope.

(* ------------------------------------------------------------------ *)
(** ** src/inngest/functions.ts *)

(** [const URL_REGEX = /https?:\/\/[^\s]+/g] *)
Definition URL_REGEX : regex :=
  Seq (Atom (Char 104%N)) (Seq (Atom (Char 116%N)) (Seq (Atom (Char 116%N))
  (Seq (Atom (Char 112%N)) (Seq (Opt (Atom (Char 115%N)))
  (Seq (Atom (Char 58%N)) (Seq (Atom (Char 47%N)) (Seq (Atom (Char 47%N))
  (Plus NotWhite)))))))).

(** The document a scrape resolves with: [{ markdown?: string }]. *)
Record Document := { markdown : option jsstring }.

(** The two hosted providers, [firecrawl.scrape(url, { formats })] of
    [@/lib/firecrawl] and [generateText({ model, prompt })] of the [ai]
    SDK. They are clients of external services: what a call resolves
    with, and whether it throws, is not decided by this code, so they are
    parameters of the pipeline. The outcome of a scrape may depend on
    which element of the array it is issued for, not only on the URL. *)
Record providers := {
  firecrawl_scrape : nat -> jsstring -> list jsstring -> outcome Document;
  generateText : jsstring -> jsstring -> outcome jsstring
}.

(** [step.run(id, fn)] of the job runner: within one pass of the handler
    it runs [fn] and settles as [fn] does. Checkpointing and retries are
    the host's and are not modelled. *)
Definition step_run {A} (id : string) (fn : M A) : M A := fn.

(** [`Context:\n${scrapeContent}\n\nQuestion:\n${prompt}`] *)
Definition context_template (scrapeContent prompt : jsstring) : jsstring :=
  lit "Context:" ++ [LF] ++ scrapeContent ++ [LF; LF]
    ++ lit "Question:" ++ [LF] ++ prompt.

(** Lines 115-117: [scrapeContent ? `...` : prompt]. *)
Definition finalPrompt (prompt scrapeContent : jsstring) : jsstring :=
  if truthy scrapeContent then context_template scrapeContent prompt
  else prompt.

(** Line 107: [results.filter(Boolean).join("\n\n")]. *)
Definition aggregate (results : list jsstring) : jsstring :=
  join [LF; LF] (filter_Boolean results).

Definition model_id : jsstring := lit "claude-3-haiku-20240307".

(** The call issued for one URL: [{ formats: ["markdown"] }]. *)
Definition scrape_call (url : jsstring) : call := ScrapeCall url [lit "markdown"].

Section Pipeline.

Variable env : providers.

(** Line 89: [prompt.match(URL_REGEX) ?? []]. The last case stands for a
    matching loop that does not return; [extract_urls_scan] shows that it
    does not arise. *)
Definition extract_urls (prompt : jsstring) : M (list jsstring) :=
  match String_match prompt URL_REGEX with
  | Some found => ret (nullish found [])
  | None => ([], Pending)
  end.

(** Lines 100-104: the async callback given to [urls.map]. *)
Definition scrape_one (k : nat) (url : jsstring) : M jsstring :=
  result <- perform (scrape_call url)
                    (firecrawl_scrape env k url [lit "markdown"]) ;;
  ret (or_else (markdown result) []).

(** How the promise of the callback of [urls.map] settles. *)
Definition scrape_settles (k : nat) (url : jsstring) : outcome jsstring :=
  match firecrawl_scrape env k url [lit "markdown"] with
  | Fulfilled d => Fulfilled (or_else (markdown d) [])
  | Rejected e => Rejected e
  | Pending => Pending
  end.

(** Lines 98-108: the body of the step [scrape-urls]. *)
Definition scrape_urls (urls : list jsstring) : M jsstring :=
  results <- Promise_all (map_indexed scrape_one 0 urls) ;;
  ret (aggregate results).

(** Lines 125-130: the body of the step [generate text]. *)
Definition generate_text (final : jsstring) : M jsstring :=
  perform (GenerateCall model_id final) (generateText env model_id final).

(** Lines 79-131: the handler. *)
Definition demoGenerate (prompt : jsstring) : M unit :=
  urls <- step_run "extract urls" (extract_urls prompt) ;;
  scrapeContent <- step_run "scrape-urls" (scrape_urls urls) ;;
  let final := finalPrompt prompt scrapeContent in
  _ <- step_run "generate text" (generate_text final) ;;
  ret tt.

(** *** The orchestration as a state machine

    The control states of the handler are its three [await]s on
    [step.run] and its two ways of settling. A state carries the
    variables that are live at that point. *)
Inductive state :=
| ExtractingURLs (prompt : jsstring)
| Scraping (prompt : jsstring) (urls : list jsstring)
| Generating (final : jsstring)
| Done
| Failed (reason : error).

(** Where the handler goes when the awaited step settles. *)
Definition resume {A} (r : outcome A) (k : A -> state) : option state :=
  match r with
  | Fulfilled v => Some (k v)
  | Rejected e => Some (Failed e)
  | Pending => None
  end.

(** One transition: the calls issued by the step that runs in the state,
    and the next state, if the step settles. *)
Definition next (s : state) : list call * option state :=
  match s with
  | ExtractingURLs prompt =>
      let m := step_run "extract urls" (extract_urls prompt) in
      (calls m, resume (settled m) (Scraping prompt))
  | Scraping prompt urls =>
      let m := step_run "scrape-urls" (scrape_urls urls) in
      (calls m, resume (settled m) (fun c => Generating (finalPrompt prompt c)))
  | Generating final =>
      let m := step_run "generate text" (generate_text final) in
      (calls m, resume (settled m) (fun _ => Done))
  | Done => ([], None)
  | Failed _ => ([], None)
  end.

Definition step (s s' : state) : Prop := snd (next s) = Some s'.

(** Run the machine: the calls issued and the state reached. *)
Fixpoint run (fuel : nat) (s : state) : list call * state :=
  match fuel with
  | 0 => ([], s)
  | S fuel' =>
      match next s with
      | (l, Some s') => let (l', s'') := run fuel' s' in (l ++ l', s'')
      | (l, None) => (l, s)
      end
  end.

(** The position of a state in the sequence of the stages. *)
Definition rank (s : state) : nat :=
  match s with
  | ExtractingURLs _ => 0
  | Scraping _ _ => 1
  | Generating _ => 2
  | Done => 3
  | Failed _ => 3
  end.

End Pipeline.

(* ------------------------------------------------------------------ *)
(** ** Vocabulary of the specification *)

Definition nonwhite (c : char16) : Prop := is_whitespace c = false.

(** The two schemes a URL token may start with. *)
Definition scheme (sch : jsstring) : Prop :=
  sch = lit "http://" \/ sch = lit "https://".

(** A URL token: a scheme followed by a non-empty run of characters that
    are not whitespace. *)
Definition url_token (u : jsstring) : Prop :=
  exists sch run,
    u = sch ++ run /\ scheme sch /\ run <> [] /\ Forall nonwhite run.

(** What follows a maximal run: the end of the input or a whitespace. *)
Definition stops (rest : jsstring) : Prop :=
  match rest with
  | [] => True
  | c :: _ => is_whitespace c = true
  end.

(** A URL-shaped substring begins at the head of [s]. *)
Definition url_starts (s : jsstring) : Prop :=
  exists u rest, s = u ++ rest /\ url_token u.

(** [s] contains no URL-shaped substring. *)
Definition url_free (s : jsstring) : Prop :=
  forall pre suf, s = pre ++ suf -> ~ url_starts suf.

(** The tokens of a prompt in encounter order: the leftmost URL token,
    taken over its maximal run, then the tokens of what follows it. *)
Inductive UrlScan : jsstring -> list jsstring -> Prop :=
| scan_done s :
    url_free s -> UrlScan s []
| scan_token pre u rest us :
    (forall p1 p2, pre = p1 ++ p2 -> p2 <> [] -> ~ url_starts (p2 ++ u ++ rest)) ->
    url_token u ->
    stops rest ->
    UrlScan rest us ->
    UrlScan (pre ++ u ++ rest) (u :: us).

(** [sub] occurs in [s]. *)
Definition substring (sub s : jsstring) : Prop :=
  exists pre post, s = pre ++ sub ++ post.

Definition starts_with (p s : jsstring) : Prop := exists t, s = p ++ t.
Definition ends_with (p s : jsstring) : Prop := exists t, s = t ++ p.

(** Aggregation in the words of the specification: drop the empty
    results, then put a blank line between the remaining ones. *)
Fixpoint drop_empty (results : list jsstring) : list jsstring :=
  match results with
  | [] => []
  | [] :: rs => drop_empty rs
  | r :: rs => r :: drop_empty rs
  end.

Fixpoint separated_by (sep : jsstring) (xs : list jsstring) : jsstring :=
  match xs with
  | [] => []
  | [x] => x
  | x :: xs' => x ++ sep ++ separated_by sep xs'
  end.

Definition spec_aggregate (results : list jsstring) : jsstring :=
  separated_by [LF; LF] (drop_empty results).

(** [xs] is [ys] with some elements left out, the order kept. *)
Inductive subsequence {A} : list A -> list A -> Prop :=
| sub_nil : subsequence [] []
| sub_keep x xs ys : subsequence xs ys -> subsequence (x :: xs) (x :: ys)
| sub_skip y xs ys : subsequence xs ys -> subsequence xs (y :: ys).

(* ------------------------------------------------------------------ *)
(** ** Functions used to state what the matcher computes *)

(** The matches of [s.match(r) ?? []], when the loop returns. *)
Definition nullish_found (m : option (option (list jsstring)))
  : option (list jsstring) :=
  option_map (fun found => nullish found []) m.

(** The maximal run of non-whitespace characters at the head of a string,
    and what is left after it. *)
Fixpoint take_run (s : jsstring) : jsstring :=
  match s with
  | [] => []
  | c :: s' => if is_whitespace c then [] else c :: take_run s'
  end.

Fixpoint drop_run (s : jsstring) : jsstring :=
  match s with
  | [] => []
  | c :: s' => if is_whitespace c then s else drop_run s'
  end.

Fixpoint strip_prefix (p s : jsstring) : option jsstring :=
  match p, s with
  | [], _ => Some s
  | _ :: _, [] => None
  | a :: p', c :: s' => if (c =? a)%N then strip_prefix p' s' else None
  end.

Definition strip_scheme (s : jsstring) : option jsstring :=
  match strip_prefix (lit "https://") s with
  | Some t => Some t
  | None => strip_prefix (lit "http://") s
  end.

(* ------------------------------------------------------------------ *)
(** ** Sample inputs *)

Definition url_a : jsstring := lit "https://a.test".
Definition url_b : jsstring := lit "https://b.test".
Definition two_url_prompt : jsstring :=
  lit "See https://a.test and https://b.test now".

(** Every page is found and has the same content. *)
Definition pages_found : providers := {|
  firecrawl_scrape := fun _ _ _ => Fulfilled {| markdown := Some (lit "page") |};
  generateText := fun _ _ => Fulfilled (lit "answer")
|}.

(** The same pages behind a model that is down. *)
Definition model_down : providers := {|
  firecrawl_scrape := fun _ _ _ => Fulfilled {| markdown := Some (lit "page") |};
  generateText := fun _ _ => Rejected (lit "overloaded")
|}.

(** The scrape of the first URL returns its page, the scrape of the
    second one throws. *)
Definition second_scrape_throws : providers := {|
  firecrawl_scrape := fun k _ _ =>
    match k with
    | 1 => Rejected (lit "scrape failed")
    | _ => Fulfilled {| markdown := Some (lit "content-A") |}
    end;
  generateText := fun _ _ => Fulfilled (lit "answer")
|}.

(** All scrapes resolve with a document that has no markdown. *)
Definition pages_blank : providers := {|
  firecrawl_scrape := fun _ _ _ => Fulfilled {| markdown := None |};
  generateText := fun _ _ => Fulfilled (lit "answer")
|}.


(** The scrape of the first URL never settles, the other ones return
    their page. *)
Definition first_scrape_hangs : providers := {|
  firecrawl_scrape := fun k _ _ =>
    match k with
    | 0 => Pending
    | _ => Fulfilled {| markdown := Some (lit "page") |}
    end;
  generateText := fun _ _ => Fulfilled (lit "answer")
|}.

(** How the handler settles once the scrape step has settled as [r]:
    an error of either step is passed on as it is, and the text of the
    generation is dropped. *)
Definition handler_settles (env : providers) (prompt : jsstring)
  (r : outcome jsstring) : outcome unit :=
  match r with
  | Fulfilled ctx =>
      match generateText env model_id (finalPrompt prompt ctx) with
      | Fulfilled _ => Fulfilled tt
      | Rejected e => Rejected e
      | Pending => Pending
      end
  | Rejected e => Rejected e
  | Pending => Pending
  end.

(** The generation call that follows a scrape step settled as [r]. *)
Definition generation_calls (prompt : jsstring) (r : outcome jsstring)
  : list call :=
  match r with
  | Fulfilled ctx => [GenerateCall model_id (finalPrompt prompt ctx)]
  | _ => []
  end.

(** The number of code units of all the strings of a list. *)
Definition total_length (xs : list jsstring) : nat :=
  list_sum (map (@length char16) xs).

(* ------------------------------------------------------------------ *)
(** ** src/app/demo/page.tsx: the handlers of the two loading buttons *)

Module DemoPage.

(** The two state cells of the component, [useState(false)] twice. *)
Record cells := { loading : bool; loadingBackground : bool }.

Definition initial : cells := {| loading := false; loadingBackground := false |}.

(** [fetch(url, { method })]. *)
Inductive request := Fetch (url : jsstring) (method : jsstring).

(** A handler runs from the current cells: the requests it has sent, the
    cells it leaves and the way its promise settles. *)
Definition Handler (A : Type) : Type := cells -> list request * cells * outcome A.

Definition done {A} (a : A) : Handler A := fun c => ([], c, Fulfilled a).

(** [await m; k]: when [m] is rejected or never settles, the rest of the
    handler does not run and the cells stay as [m] left them. *)
Definition andThen {A B} (m : Handler A) (k : A -> Handler B) : Handler B :=
  fun c =>
    match m c with
    | (l, c1, Fulfilled a) =>
        match k a c1 with (l', c2, r) => (l ++ l', c2, r) end
    | (l, c1, Rejected e) => (l, c1, Rejected e)
    | (l, c1, Pending) => (l, c1, Pending)
    end.

Definition setLoading (b : bool) : Handler unit :=
  fun c => ([], {| loading := b; loadingBackground := loadingBackground c |},
            Fulfilled tt).

Definition setLoadingBackground (b : bool) : Handler unit :=
  fun c => ([], {| loading := loading c; loadingBackground := b |}, Fulfilled tt).

(** The network decides how a request settles; the response is not
    looked at. *)
Definition fetch (net : request -> outcome unit) (url method : jsstring)
  : Handler unit :=
  fun c => ([Fetch url method], c, net (Fetch url method)).

Section Handlers.

Variable net : request -> outcome unit.

(** Lines 13-19. *)
Definition handleBlocking : Handler unit :=
  andThen (setLoading true) (fun _ =>
  andThen (fetch net (lit "/api/demo/blocking") (lit "POST")) (fun _ =>
  setLoading false)).

(** Lines 21-27. *)
Definition handleBackground : Handler unit :=
  andThen (setLoadingBackground true) (fun _ =>
  andThen (fetch net (lit "/api/demo/background") (lit "POST")) (fun _ =>
  setLoadingBackground false)).

End Handlers.

(** Lines 53-58: what the two buttons show. *)
Record button := { label : jsstring; disabled : bool }.

Definition blocking_button (c : cells) : button :=
  {| label := if loading c then lit "Loading..." else lit "Blocking";
     disabled := loading c |}.

Definition background_button (c : cells) : button :=
  {| label := if loadingBackground c then lit "Loading..." else lit "Background";
     disabled := loadingBackground c |}.

End DemoPage.

(** A single page with the given content, behind a model that answers. *)
Definition page_with (content : jsstring) : providers := {|
  firecrawl_scrape := fun _ _ _ => Fulfilled {| markdown := Some content |};
  generateText := fun _ _ => Fulfilled (lit "answer")
|}.

Ltac agree :=
  cbv [ret calls settled fst snd]; rewrite ?app_nil_r;
  split; [reflexivity|]; split; try intros ?; split; congruence.


(* ------------------------------------------------------------------ *)
(** ** The regular expression *)

Section Regex.

Lemma take_drop_run s : s = take_run s ++ drop_run s.
Proof.
  induction s as [|c s IH]; simpl; [reflexivity|].
  destruct (is_whitespace c); simpl; [reflexivity|]. now f_equal.
Qed.

Lemma take_run_nonwhite s : Forall nonwhite (take_run s).
Proof.
  induction s as [|c s IH]; simpl; [constructor|].
  destruct (is_whitespace c) eqn:E; constructor; assumption.
Qed.

Lemma drop_run_stops s : stops (drop_run s).
Proof.
  induction s as [|c s IH]; simpl; [exact I|].
  destruct (is_whitespace c) eqn:E; simpl; assumption.
Qed.

Lemma run_unique run e :
  Forall nonwhite run -> stops e ->
  take_run (run ++ e) = run /\ drop_run (run ++ e) = e.
Proof.
  induction 1 as [|c run Hc _ IH]; intros He; simpl.
  - destruct e as [|c e]; simpl in *; [now split|]. now rewrite He.
  - rewrite Hc. destruct (IH He) as [-> ->]. now split.
Qed.

Lemma plus_NotWhite s :
  plus_loop NotWhite s (fun e => Some e)
  = match take_run s with [] => None | _ :: _ => Some (drop_run s) end.
Proof.
  induction s as [|c s IH]; simpl; [reflexivity|].
  destruct (is_whitespace c); simpl; [reflexivity|].
  rewrite IH. destruct s as [|d s]; simpl; [reflexivity|].
  destruct (is_whitespace d); reflexivity.
Qed.

Lemma strip_prefix_spec p s t : strip_prefix p s = Some t <-> s = p ++ t.
Proof.
  revert s; induction p as [|a p IH]; intros s; simpl.
  - split; congruence.
  - destruct s as [|c s]; [split; discriminate|].
    destruct (N.eqb_spec c a) as [->|Hne].
    + rewrite IH. split; congruence.
    + split; [discriminate|]. intros [= H _]. contradiction.
Qed.

Lemma match_here_URL s :
  match_here URL_REGEX s
  = match strip_scheme s with
    | Some t => plus_loop NotWhite t (fun e => Some e)
    | None => None
    end.
Proof.
  unfold match_here, strip_scheme, URL_REGEX.
  repeat (destruct s as [|? s]; cbn; try reflexivity;
          match goal with
          | |- context [(?c =? ?d)%N] => destruct (N.eqb_spec c d); subst; cbn; try reflexivity
          end).
  destruct (plus_loop NotWhite s (fun e => Some e)); reflexivity.
Qed.

Lemma strip_scheme_spec s t :
  strip_scheme s = Some t <-> exists sch, scheme sch /\ s = sch ++ t.
Proof.
  unfold strip_scheme. split.
  - destruct (strip_prefix (lit "https://") s) as [t'|] eqn:E.
    + intros [= ->]. apply strip_prefix_spec in E.
      exists (lit "https://"). split; [now right | assumption].
    + intros H. apply strip_prefix_spec in H.
      exists (lit "http://"). split; [now left | assumption].
  - intros (sch & [-> | ->] & ->); reflexivity.
Qed.

(** An anchored match of [URL_REGEX] is a scheme followed by the maximal,
    non-empty run of non-whitespace characters. *)
Lemma match_here_spec s e :
  match_here URL_REGEX s = Some e <->
  exists sch run,
    scheme sch /\ s = sch ++ run ++ e /\ run <> [] /\ Forall nonwhite run /\ stops e.
Proof.
  rewrite match_here_URL. split.
  - destruct (strip_scheme s) as [t|] eqn:E; [|discriminate].
    apply strip_scheme_spec in E. destruct E as (sch & Hsch & ->).
    rewrite plus_NotWhite.
    destruct (take_run t) as [|c r] eqn:Er; [discriminate|]. intros [= <-].
    exists sch, (c :: r). repeat split; try assumption.
    + now rewrite <- Er, <- take_drop_run.
    + discriminate.
    + rewrite <- Er. apply take_run_nonwhite.
    + apply drop_run_stops.
  - intros (sch & run & Hsch & -> & Hne & Hrun & He).
    assert (E : strip_scheme (sch ++ run ++ e) = Some (run ++ e))
      by (apply strip_scheme_spec; eauto).
    rewrite E, plus_NotWhite.
    destruct (run_unique run e Hrun He) as [-> ->].
    destruct run; [contradiction | reflexivity].
Qed.

Lemma url_starts_match s :
  url_starts s <-> exists e, match_here URL_REGEX s = Some e.
Proof.
  split.
  - intros (u & rest & -> & sch & run & -> & Hsch & Hne & Hrun).
    rewrite match_here_URL.
    assert (E : strip_scheme ((sch ++ run) ++ rest) = Some (run ++ rest))
      by (apply strip_scheme_spec; exists sch; now rewrite app_assoc).
    rewrite E, plus_NotWhite.
    destruct run as [|c run]; [contradiction|].
    inversion Hrun as [|? ? Hc _]; subst. simpl. rewrite Hc. eauto.
  - intros (e & H). apply match_here_spec in H.
    destruct H as (sch & run & Hsch & -> & Hne & Hrun & _).
    exists (sch ++ run), e. split; [now rewrite app_assoc|].
    exists sch, run. auto.
Qed.

Lemma url_token_nonempty u : url_token u -> u <> [].
Proof.
  intros (sch & run & -> & _ & Hne & _) H.
  apply app_eq_nil in H. now destruct H.
Qed.

Lemma firstn_matched (a e : jsstring) :
  firstn (length (a ++ e) - length e) (a ++ e) = a.
Proof.
  replace (length (a ++ e) - length e) with (length a)
    by (rewrite length_app; lia).
  rewrite firstn_app, firstn_all, Nat.sub_diag. simpl. apply app_nil_r.
Qed.

Lemma exec_eq r s :
  exec r s
  = match match_here r s with
    | Some e => Some (firstn (length s - length e) s, e)
    | None => match s with [] => None | _ :: s' => exec r s' end
    end.
Proof. destruct s; reflexivity. Qed.

(** [exec] finds the leftmost token and takes it over its maximal run. *)
Lemma exec_Some s m e :
  exec URL_REGEX s = Some (m, e) ->
  exists pre,
    s = pre ++ m ++ e /\ url_token m /\ stops e /\
    (forall p1 p2, pre = p1 ++ p2 -> p2 <> [] -> ~ url_starts (p2 ++ m ++ e)).
Proof.
  induction s as [|c s IH]; rewrite exec_eq.
  - destruct (match_here URL_REGEX []) eqn:E; [|discriminate].
    apply match_here_spec in E. destruct E as (sch & run & [-> | ->] & H & _);
      discriminate.
  - destruct (match_here URL_REGEX (c :: s)) as [e'|] eqn:E.
    + apply match_here_spec in E.
      destruct E as (sch & run & Hsch & Hs & Hne & Hrun & He).
      rewrite Hs, app_assoc, firstn_matched. intros [= <- <-].
      exists []. repeat split; auto.
      * exists sch, run. auto.
      * intros p1 p2 Hp. symmetry in Hp. apply app_eq_nil in Hp.
        now destruct Hp.
    + intros H. destruct (IH H) as (pre & -> & Hm & He & Hleft).
      exists (c :: pre). repeat split; auto.
      intros p1 p2 Hp Hne. destruct p1 as [|d p1]; simpl in Hp.
      * subst p2. intros Hu. apply url_starts_match in Hu.
        destruct Hu as (e' & Hu). simpl in Hu. congruence.
      * injection Hp as -> ->. now apply Hleft with p1.
Qed.

Lemma exec_None s : exec URL_REGEX s = None -> url_free s.
Proof.
  induction s as [|c s IH]; rewrite exec_eq.
  - destruct (match_here URL_REGEX []) eqn:E; [discriminate|]. intros _.
    intros pre suf Hs Hu. symmetry in Hs. apply app_eq_nil in Hs.
    destruct Hs as [_ ->]. apply url_starts_match in Hu.
    destruct Hu as (e & Hu). congruence.
  - destruct (match_here URL_REGEX (c :: s)) eqn:E; [discriminate|].
    intros H pre suf Hs Hu. destruct pre as [|d pre]; simpl in Hs.
    + subst suf. apply url_starts_match in Hu. destruct Hu as (e & Hu).
      congruence.
    + injection Hs as _ Hs. exact (IH H pre suf Hs Hu).
Qed.

(** The loop never runs out of fuel, and it computes the scan. *)
Lemma match_loop_scan fuel s :
  length s < fuel ->
  exists us, match_loop fuel URL_REGEX s = Some us /\ UrlScan s us.
Proof.
  revert s; induction fuel as [|fuel IH]; intros s Hlen; [lia|].
  simpl. destruct (exec URL_REGEX s) as [[m e]|] eqn:E.
  - destruct (exec_Some _ _ _ E) as (pre & -> & Hm & He & Hleft).
    destruct m as [|c m]; [now apply url_token_nonempty in Hm|].
    destruct (IH e) as (us & -> & Hus).
    { rewrite !length_app in Hlen. simpl in Hlen. lia. }
    exists ((c :: m) :: us). split; [reflexivity|].
    now constructor.
  - exists []. split; [reflexivity|]. constructor. now apply exec_None.
Qed.

End Regex.

(* ------------------------------------------------------------------ *)
(** ** The scan of a prompt *)

Section Scan.

Lemma token_head_match u rest :
  url_token u -> stops rest -> match_here URL_REGEX (u ++ rest) = Some rest.
Proof.
  intros (sch & run & -> & Hsch & Hne & Hrun) He.
  apply match_here_spec. exists sch, run. rewrite <- app_assoc. auto.
Qed.

Lemma token_starts u rest : url_token u -> url_starts (u ++ rest).
Proof. intros Hu. now exists u, rest. Qed.

(** The leftmost token of a string is determined by the string. *)
Lemma first_token_unique pre u rest pre' u' rest' :
  pre ++ u ++ rest = pre' ++ u' ++ rest' ->
  (forall p1 p2, pre = p1 ++ p2 -> p2 <> [] -> ~ url_starts (p2 ++ u ++ rest)) ->
  (forall p1 p2, pre' = p1 ++ p2 -> p2 <> [] -> ~ url_starts (p2 ++ u' ++ rest')) ->
  url_token u -> stops rest -> url_token u' -> stops rest' ->
  pre = pre' /\ u = u' /\ rest = rest'.
Proof.
  intros E L L' Hu Hr Hu' Hr'.
  assert (Hpre : pre = pre' /\ u ++ rest = u' ++ rest').
  { destruct (app_eq_app _ _ _ _ E) as (l & [[-> Hl] | [-> Hl]]).
    - destruct l as [|c l].
      + rewrite app_nil_r. now split.
      + exfalso. apply (L pre' (c :: l) eq_refl); [discriminate|].
        rewrite <- Hl. now apply token_starts.
    - destruct l as [|c l].
      + rewrite app_nil_r. now split.
      + exfalso. apply (L' pre (c :: l) eq_refl); [discriminate|].
        rewrite <- Hl. now apply token_starts. }
  destruct Hpre as [-> E'].
  pose proof (token_head_match _ _ Hu Hr) as M.
  rewrite E', (token_head_match _ _ Hu' Hr') in M. injection M as ->.
  apply app_inv_tail in E'. auto.
Qed.

(** A prompt has one scan. *)
Lemma UrlScan_unique s us :
  UrlScan s us -> forall us', UrlScan s us' -> us' = us.
Proof.
  induction 1 as [s Hfree | pre u rest us L Hu Hr Hscan IH]; intros us' H'.
  - inversion H' as [? _ | pre' u' rest' ? _ Hu' _ _ E]; subst; [reflexivity|].
    exfalso. apply (Hfree pre' (u' ++ rest') eq_refl). now apply token_starts.
  - remember (pre ++ u ++ rest) as s eqn:Es.
    destruct H' as [s Hfree | pre' u' rest' us' L' Hu' Hr' Hscan'].
    + exfalso. apply (Hfree pre (u ++ rest) Es). now apply token_starts.
    + destruct (first_token_unique _ _ _ _ _ _ Es L' L Hu' Hr' Hu Hr)
        as (-> & -> & ->).
      f_equal. now apply IH.
Qed.

(** Every element of a scan is a token that occurs in the prompt. *)
Lemma UrlScan_tokens s us :
  UrlScan s us -> Forall (fun u => url_token u /\ substring u s) us.
Proof.
  induction 1 as [s Hfree | pre u rest us L Hu Hr Hscan IH]; constructor.
  - split; [assumption | now exists pre, rest].
  - eapply Forall_impl; [|exact IH]. intros v [Hv (a & b & ->)].
    split; [assumption|]. exists (pre ++ u ++ a), b.
    now rewrite <- !app_assoc.
Qed.

(** Every place of the prompt at which a URL-shaped substring begins lies
    within a reported token. *)
Lemma UrlScan_covers s us :
  UrlScan s us ->
  forall a suf, s = a ++ suf -> url_starts suf ->
  exists pre u post,
    s = pre ++ u ++ post /\ In u us /\
    length pre <= length a < length pre + length u.
Proof.
  induction 1 as [s Hfree | pre u rest us L Hu Hr Hscan IH]; intros a suf E Hs.
  - now elim (Hfree a suf E).
  - assert (Hlen : 0 < length u).
    { apply url_token_nonempty in Hu. destruct u; [contradiction | simpl; lia]. }
    assert (Later : forall l2, rest = l2 ++ suf -> a = pre ++ u ++ l2 ->
      exists pre0 u0 post,
        pre ++ u ++ rest = pre0 ++ u0 ++ post /\ In u0 (u :: us) /\
        length pre0 <= length a < length pre0 + length u0).
    { intros l2 Er Ea. destruct (IH l2 suf Er Hs) as (p & v & q & Ev & Hin & Hl).
      exists (pre ++ u ++ p), v, q. split; [|split].
      - rewrite Ev. now rewrite <- !app_assoc.
      - now right.
      - rewrite Ea, !length_app. lia. }
    destruct (app_eq_app _ _ _ _ E) as (l & [[Ea El] | [Ea El]]).
    + destruct l as [|c l].
      * exists pre, u, rest. rewrite app_nil_r in Ea. subst a.
        split; [reflexivity|]. split; [now left | lia].
      * exfalso. apply (L a (c :: l) Ea); [discriminate|]. now rewrite <- El.
    + symmetry in El. destruct (app_eq_app _ _ _ _ El) as (l2 & [[-> E2] | [-> E2]]).
      * apply (Later l2 E2). now rewrite Ea.
      * destruct l2 as [|c l2].
        { simpl in E2. subst suf. apply (Later [] eq_refl).
          rewrite Ea, !app_nil_r. reflexivity. }
        exists pre, (l ++ c :: l2), rest. split; [reflexivity|].
        split; [now left|]. rewrite Ea, !length_app. simpl. lia.
Qed.

Lemma String_match_scan prompt :
  exists us,
    nullish_found (String_match prompt URL_REGEX) = Some us /\ UrlScan prompt us.
Proof.
  unfold String_match.
  destruct (match_loop_scan (S (length prompt)) prompt) as (us & -> & Hus);
    [lia|].
  exists us. split; [|assumption]. now destruct us.
Qed.

(** The step [extract urls] is fulfilled, without any call, with the scan
    of the prompt. *)
Lemma extract_urls_scan prompt :
  exists urls, extract_urls prompt = ret urls /\ UrlScan prompt urls.
Proof.
  destruct (String_match_scan prompt) as (us & E & Hus).
  exists us. split; [|assumption].
  unfold extract_urls, nullish_found in *.
  destruct (String_match prompt URL_REGEX) as [found|]; [|discriminate].
  now injection E as <-.
Qed.

End Scan.

(* ------------------------------------------------------------------ *)
(** ** Aggregation *)

Section Aggregation.

Lemma filter_Boolean_acc xs : forall kept,
  fold_left (fun kept x => if truthy x then kept ++ [x] else kept) xs kept
  = kept ++ drop_empty xs.
Proof.
  induction xs as [|x xs IH]; intros kept; simpl.
  - now rewrite app_nil_r.
  - destruct x as [|c x]; simpl; rewrite IH; [reflexivity|].
    now rewrite <- app_assoc.
Qed.

Lemma filter_Boolean_drop_empty xs : filter_Boolean xs = drop_empty xs.
Proof. unfold filter_Boolean. now rewrite filter_Boolean_acc. Qed.

Lemma join_from_later sep xs : forall k R,
  join_from sep (S k) xs R = R ++ concat (map (fun x => sep ++ x) xs).
Proof.
  induction xs as [|x xs IH]; intros k R; simpl.
  - now rewrite app_nil_r.
  - rewrite IH. now rewrite <- !app_assoc.
Qed.

Lemma separated_by_cons sep x xs :
  separated_by sep (x :: xs) = x ++ concat (map (fun y => sep ++ y) xs).
Proof.
  revert x; induction xs as [|y ys IH]; intros x.
  - simpl. now rewrite app_nil_r.
  - change (separated_by sep (x :: y :: ys))
      with (x ++ sep ++ separated_by sep (y :: ys)).
    rewrite IH. simpl. now rewrite <- app_assoc.
Qed.

Lemma join_separated_by sep xs : join sep xs = separated_by sep xs.
Proof.
  unfold join. destruct xs as [|x xs]; [reflexivity|].
  cbn [join_from]. rewrite join_from_later, separated_by_cons. reflexivity.
Qed.

Lemma drop_empty_subsequence xs : subsequence (drop_empty xs) xs.
Proof.
  induction xs as [|x xs IH]; simpl; [constructor|].
  destruct x; now constructor.
Qed.

Lemma drop_empty_In xs r : In r (drop_empty xs) <-> In r xs /\ r <> [].
Proof.
  induction xs as [|x xs IH]; simpl; [tauto|].
  destruct x as [|c x]; simpl; rewrite IH; split.
  - tauto.
  - intros [[<- | H] Hr]; [contradiction | tauto].
  - intros [<- | [H Hr]]; [split; [now left | discriminate] | tauto].
  - tauto.
Qed.

End Aggregation.

(* ------------------------------------------------------------------ *)
(** ** The steps of the handler *)

Section Steps.

Variable env : providers.

Lemma scrape_one_eq k url :
  scrape_one env k url = ([scrape_call url], scrape_settles env k url).
Proof.
  unfold scrape_one, scrape_settles, perform, bind, ret, scrape_call.
  destruct (firecrawl_scrape env k url [lit "markdown"]); reflexivity.
Qed.

Lemma map_indexed_calls urls : forall k,
  concat (map calls (map_indexed (scrape_one env) k urls)) = map scrape_call urls.
Proof.
  induction urls as [|u urls IH]; intros k; simpl; [reflexivity|].
  now rewrite scrape_one_eq, IH.
Qed.

Lemma map_indexed_settled urls : forall k,
  map settled (map_indexed (scrape_one env) k urls)
  = map_indexed (scrape_settles env) k urls.
Proof.
  induction urls as [|u urls IH]; intros k; simpl; [reflexivity|].
  now rewrite scrape_one_eq, IH.
Qed.

(** The step [scrape-urls]: one call per URL, in order, whatever the
    outcomes; it settles as [Promise.all] does. *)
Lemma scrape_urls_eq urls :
  scrape_urls env urls
  = (map scrape_call urls,
     match all_outcomes (map_indexed (scrape_settles env) 0 urls) with
     | Fulfilled results => Fulfilled (aggregate results)
     | Rejected e => Rejected e
     | Pending => Pending
     end).
Proof.
  unfold scrape_urls, Promise_all, bind, ret.
  rewrite map_indexed_calls, map_indexed_settled.
  destruct (all_outcomes (map_indexed (scrape_settles env) 0 urls));
    rewrite ?app_nil_r; reflexivity.
Qed.

Lemma generate_text_eq final :
  generate_text env final
  = ([GenerateCall model_id final], generateText env model_id final).
Proof. reflexivity. Qed.

(** The handler after its first step. *)
Lemma demoGenerate_after_extract prompt urls :
  extract_urls prompt = ret urls ->
  demoGenerate env prompt
  = (scrapeContent <- scrape_urls env urls ;;
     _ <- generate_text env (finalPrompt prompt scrapeContent) ;;
     ret tt).
Proof.
  intros E. unfold demoGenerate, step_run. rewrite E. unfold ret at 1.
  cbn [bind]. destruct (_ <- _ ;; _). reflexivity.
Qed.

(** The handler when the scrape step is fulfilled. *)
Lemma demoGenerate_fulfilled_scrape prompt urls ctx :
  extract_urls prompt = ret urls ->
  settled (scrape_urls env urls) = Fulfilled ctx ->
  demoGenerate env prompt
  = (map scrape_call urls ++ [GenerateCall model_id (finalPrompt prompt ctx)],
     match generateText env model_id (finalPrompt prompt ctx) with
     | Fulfilled _ => Fulfilled tt
     | Rejected e => Rejected e
     | Pending => Pending
     end).
Proof.
  intros E Hs. rewrite (demoGenerate_after_extract _ _ E).
  rewrite scrape_urls_eq in *. cbn [settled snd] in Hs.
  destruct (all_outcomes _); try discriminate. injection Hs as <-.
  unfold bind, generate_text, perform, ret.
  destruct (generateText env model_id _); rewrite ?app_nil_r; reflexivity.
Qed.

(** The handler when the scrape step does not get fulfilled: the
    generation step is never reached. *)
Lemma demoGenerate_unfulfilled_scrape prompt urls :
  extract_urls prompt = ret urls ->
  (forall ctx, settled (scrape_urls env urls) <> Fulfilled ctx) ->
  calls (demoGenerate env prompt) = map scrape_call urls /\
  (forall u, settled (demoGenerate env prompt) <> Fulfilled u).
Proof.
  intros E Hs. rewrite (demoGenerate_after_extract _ _ E).
  rewrite scrape_urls_eq in *. cbn [settled snd] in Hs.
  destruct (all_outcomes _) as [results | e |].
  - now elim (Hs (aggregate results)).
  - split; [reflexivity | discriminate].
  - split; [reflexivity | discriminate].
Qed.

End Steps.

(* ------------------------------------------------------------------ *)
(** ** The state machine of the orchestration *)

Section Machine.

Variable env : providers.

Lemma resume_rank {A} (r : outcome A) (k : A -> state) n s' :
  (forall v, n < rank (k v)) -> n < 3 ->
  resume r k = Some s' -> n < rank s'.
Proof.
  intros Hk Hn. destruct r; simpl; intros [= <-]; [apply Hk | simpl; lia].
Qed.

(** Every transition moves forward in the sequence of the stages. *)
Lemma step_rank s s' : step env s s' -> rank s < rank s'.
Proof.
  unfold step. destruct s; simpl; try discriminate;
    apply resume_rank; simpl; intros; lia.
Qed.

Lemma steps_rank s s' : clos_trans state (step env) s s' -> rank s < rank s'.
Proof.
  induction 1 as [s s' H | s t s' _ IH1 _ IH2].
  - now apply step_rank.
  - lia.
Qed.

Lemma run_terminal fuel s :
  snd (next env s) = None -> fst (next env s) = [] -> run env fuel s = ([], s).
Proof.
  intros Hn Hc. destruct fuel; simpl; [reflexivity|].
  destruct (next env s) as [l o]. simpl in *. now subst.
Qed.

(** Three transitions of the machine are one pass of the handler: the
    same calls in the same order, and the machine ends in [Done] or
    [Failed] exactly when the handler is fulfilled or rejected. *)
Lemma run_demoGenerate prompt :
  calls (demoGenerate env prompt) = fst (run env 3 (ExtractingURLs prompt)) /\
  (settled (demoGenerate env prompt) = Fulfilled tt <->
   snd (run env 3 (ExtractingURLs prompt)) = Done) /\
  (forall e, settled (demoGenerate env prompt) = Rejected e <->
   snd (run env 3 (ExtractingURLs prompt)) = Failed e).
Proof.
  destruct (extract_urls_scan prompt) as (urls & E & _).
  rewrite (demoGenerate_after_extract env _ _ E).
  cbn [run next]. unfold step_run. rewrite E. cbn [calls settled fst snd ret resume].
  cbn [run next]. unfold step_run.
  rewrite scrape_urls_eq. cbn [calls settled fst snd].
  destruct (all_outcomes _) as [results | e |]; cbn [resume bind ret].
  - cbn [run next]. unfold step_run. rewrite generate_text_eq.
    cbn [calls settled fst snd perform bind].
    destruct (generateText env model_id _) as [t | e |];
      cbn [resume run next fst snd app]; rewrite ?app_nil_r; agree.
  - cbn [run next fst snd app]. agree.
  - cbn [fst snd app]. agree.
Qed.

End Machine.

(* ------------------------------------------------------------------ *)
(** ** URL extraction *)

Section Extraction.

Lemma scheme_nonwhite sch : scheme sch -> Forall nonwhite sch.
Proof. intros [-> | ->]; repeat constructor. Qed.

Lemma url_token_shape u :
  url_token u ->
  (starts_with (lit "http://") u \/ starts_with (lit "https://") u) /\
  Forall nonwhite u.
Proof.
  intros (sch & run & -> & Hsch & _ & Hrun). split.
  - destruct Hsch as [-> | ->]; [left | right]; now exists run.
  - apply Forall_app. split; [now apply scheme_nonwhite | assumption].
Qed.

Lemma url_free_scan s us : url_free s -> UrlScan s us -> us = [].
Proof. intros Hf Hs. apply (UrlScan_unique s [] (scan_done s Hf) us Hs). Qed.

Lemma url_free_extract prompt : url_free prompt -> extract_urls prompt = ret [].
Proof.
  intros Hf. destruct (extract_urls_scan prompt) as (urls & E & Hs).
  now rewrite E, (url_free_scan _ _ Hf Hs).
Qed.

(** C4. For every prompt, the step [extract urls] is fulfilled (it never
    rejects and issues no call) with the scan of the prompt: the URL
    tokens in encounter order, each one a scheme [http://] or [https://]
    followed by the maximal non-empty run of non-whitespace characters,
    found from left to right. The prompt has no other scan; every place
    at which a URL-shaped substring begins lies within a reported token;
    the result is empty when the prompt has no URL-shaped substring; and
    a URL that occurs twice is reported twice. *)
Theorem C4_extract_urls_is_the_scan :
  (forall prompt, exists urls,
      extract_urls prompt = ret urls /\
      UrlScan prompt urls /\
      (forall us, UrlScan prompt us -> us = urls) /\
      (forall a suf, prompt = a ++ suf -> url_starts suf ->
         exists pre u post,
           prompt = pre ++ u ++ post /\ In u urls /\
           length pre <= length a < length pre + length u) /\
      (url_free prompt -> urls = [])) /\
  extract_urls (lit "http://a.test then http://a.test")
  = ret [lit "http://a.test"; lit "http://a.test"].
Proof.
  split; [|reflexivity].
  intros prompt. destruct (extract_urls_scan prompt) as (urls & E & Hs).
  exists urls. repeat split.
  - exact E.
  - exact Hs.
  - apply UrlScan_unique, Hs.
  - apply UrlScan_covers, Hs.
  - intros Hf. exact (url_free_scan _ _ Hf Hs).
Qed.

(** C6. The prompt ["See https://a.test and https://b.test now"] yields
    exactly the two URLs [https://a.test] and [https://b.test], in that
    order. *)
Theorem C6_two_url_prompt :
  extract_urls two_url_prompt = ret [url_a; url_b].
Proof. reflexivity. Qed.

(** C9. Every element of the sequence returned by the URL extraction
    starts with [http://] or [https://], contains no whitespace
    character and occurs as a substring of the prompt. *)
Theorem C9_extracted_urls_wellformed prompt :
  exists urls,
    extract_urls prompt = ret urls /\
    Forall (fun u =>
              (starts_with (lit "http://") u \/ starts_with (lit "https://") u) /\
              Forall nonwhite u /\
              substring u prompt) urls.
Proof.
  destruct (extract_urls_scan prompt) as (urls & E & Hs).
  exists urls. split; [exact E|].
  eapply Forall_impl; [|exact (UrlScan_tokens _ _ Hs)].
  intros u [Hu Hsub]. destruct (url_token_shape u Hu) as [Hp Hw]. auto.
Qed.

End Extraction.

(* ------------------------------------------------------------------ *)
(** ** The scrape step *)

Section Scrape.

Variable env : providers.

Lemma nth_error_map_indexed {A B} (f : nat -> A -> B) xs : forall k0 k x,
  nth_error xs k = Some x ->
  nth_error (map_indexed f k0 xs) k = Some (f (k0 + k) x).
Proof.
  induction xs as [|y xs IH]; intros k0 [|k] x; simpl; try discriminate.
  - intros [= ->]. now rewrite Nat.add_0_r.
  - intros H. rewrite (IH (S k0) k x H). f_equal. f_equal. lia.
Qed.

(** One rejected element rejects [Promise.all]. *)
Lemma all_outcomes_rejected {A} (rs : list (outcome A)) : forall k e,
  nth_error rs k = Some (Rejected e) -> exists e', all_outcomes rs = Rejected e'.
Proof.
  induction rs as [|r rs IH]; intros [|k] e; simpl; try discriminate.
  - intros [= ->]. eauto.
  - intros H. destruct (IH k e H) as (e' & ->).
    destruct r; eauto.
Qed.

(** [Promise.all] is fulfilled when every element is. *)
Lemma all_outcomes_fulfilled {A} (vs : list A) :
  all_outcomes (map Fulfilled vs) = Fulfilled vs.
Proof. induction vs as [|v vs IH]; simpl; [reflexivity | now rewrite IH]. Qed.

(** A scrape that throws rejects the whole step, whatever the other
    scrapes return; the calls for all the URLs have been issued. *)
Lemma scrape_rejection_rejects_step urls k url e :
  nth_error urls k = Some url ->
  firecrawl_scrape env k url [lit "markdown"] = Rejected e ->
  exists e',
    scrape_urls env urls = (map scrape_call urls, Rejected e').
Proof.
  intros Hk He. rewrite scrape_urls_eq.
  pose proof (nth_error_map_indexed (scrape_settles env) urls 0 k url Hk) as Hn.
  simpl in Hn. unfold scrape_settles at 2 in Hn. rewrite He in Hn.
  destruct (all_outcomes_rejected _ _ _ Hn) as (e' & ->). eauto.
Qed.

(** A scrape that resolves without content contributes the empty string. *)
Lemma scrape_no_content k url d :
  firecrawl_scrape env k url [lit "markdown"] = Fulfilled d ->
  markdown d = None \/ markdown d = Some [] ->
  scrape_settles env k url = Fulfilled [].
Proof.
  intros E H. unfold scrape_settles. rewrite E.
  destruct H as [-> | ->]; reflexivity.
Qed.

Lemma all_empty_results urls : forall k,
  (forall i url, scrape_settles env i url = Fulfilled []) ->
  map_indexed (scrape_settles env) k urls = map Fulfilled (map (fun _ => []) urls).
Proof.
  induction urls as [|u urls IH]; intros k H; simpl; [reflexivity|].
  now rewrite H, IH.
Qed.

Lemma all_fulfilled_results :
  (forall k url, exists d,
      firecrawl_scrape env k url [lit "markdown"] = Fulfilled d) ->
  forall urls k, exists results,
    map_indexed (scrape_settles env) k urls = map Fulfilled results.
Proof.
  intros Hall. induction urls as [|u urls IH]; intros k; [now exists []|].
  destruct (IH (S k)) as (results & Hr). destruct (Hall k u) as (d & Hd).
  exists (or_else (markdown d) [] :: results). simpl.
  rewrite Hr. unfold scrape_settles. now rewrite Hd.
Qed.

Lemma aggregate_all_empty {A} (xs : list A) :
  aggregate (map (fun _ => []) xs) = [].
Proof.
  unfold aggregate. rewrite filter_Boolean_drop_empty.
  induction xs as [|x xs IH]; simpl; [reflexivity | exact IH].
Qed.

End Scrape.

(** C1. On the URLs [https://a.test] and [https://b.test], when the
    scrape of the first one returns ["content-A"] and the scrape of the
    second one throws, both scrape calls are issued and the step
    [scrape-urls] is rejected with the error of the second scrape: it
    does not resolve with ["content-A"]. The handler is rejected in the
    same way before any generation call. *)
Theorem C1_throwing_scrape_rejects_the_stage :
  scrape_urls second_scrape_throws [url_a; url_b]
  = ([scrape_call url_a; scrape_call url_b], Rejected (lit "scrape failed")) /\
  demoGenerate second_scrape_throws two_url_prompt
  = ([scrape_call url_a; scrape_call url_b], Rejected (lit "scrape failed")).
Proof. split; reflexivity. Qed.

(* ------------------------------------------------------------------ *)
(** ** Aggregation and the final prompt *)

(** C3. For every list of per-URL results, the aggregation is the
    results without the empty ones, joined by a blank line: what is kept
    is a subsequence of the results (the order of the URLs is kept), it
    is exactly the non-empty results, and the scrape step is fulfilled
    with this aggregation of what its scrapes resolved with. For the
    results ["content-A"] and [""] the aggregated context is
    ["content-A"]. *)
Theorem C3_aggregation_filters_and_joins :
  (forall results,
      aggregate results = spec_aggregate results /\
      subsequence (drop_empty results) results /\
      (forall r, In r (drop_empty results) <-> In r results /\ r <> [])) /\
  (forall env urls results,
      map_indexed (scrape_settles env) 0 urls = map Fulfilled results ->
      scrape_urls env urls
      = (map scrape_call urls, Fulfilled (spec_aggregate results))) /\
  aggregate [lit "content-A"; []] = lit "content-A".
Proof.
  assert (H : forall results, aggregate results = spec_aggregate results).
  { intros results. unfold aggregate, spec_aggregate.
    now rewrite filter_Boolean_drop_empty, join_separated_by. }
  split; [|split].
  - intros results. split; [apply H|]. split.
    + apply drop_empty_subsequence.
    + intros r. apply drop_empty_In.
  - intros env urls results E.
    now rewrite scrape_urls_eq, E, all_outcomes_fulfilled, H.
  - reflexivity.
Qed.

Lemma finalPrompt_suffix prompt ctx : ends_with prompt (finalPrompt prompt ctx).
Proof.
  unfold finalPrompt. destruct ctx as [|c ctx]; simpl.
  - now exists [].
  - unfold context_template.
    exists (lit "Context:" ++ [LF] ++ (c :: ctx) ++ [LF; LF] ++ lit "Question:" ++ [LF]).
    now rewrite <- !app_assoc.
Qed.

(** The two examples of the specification, in code units. *)
Example finalPrompt_with_context :
  finalPrompt (lit "Q") (lit "X")
  = [67; 111; 110; 116; 101; 120; 116; 58; 10; 88; 10; 10;
     81; 117; 101; 115; 116; 105; 111; 110; 58; 10; 81]%N.
Proof. reflexivity. Qed.

Example finalPrompt_without_context : finalPrompt (lit "Q") [] = lit "Q".
Proof. reflexivity. Qed.

(** C2. For every original prompt and every aggregated context, the
    final prompt is ["Context:\n<context>\n\nQuestion:\n<prompt>"] when
    the context is not empty and the original prompt when it is empty,
    as in the two examples with ["X"] and ["Q"]. This final prompt is
    what the generation call receives: the generation step run on it
    issues the call with it, every pair of a prompt and a context is
    reached by the orchestration (a single page with this content
    suffices), and whenever the scrape step of the handler is fulfilled
    with a context the handler issues the generation call with the final
    prompt of the prompt and this context. *)
Theorem C2_final_prompt_composition :
  (forall prompt ctx,
      ctx <> [] ->
      finalPrompt prompt ctx
      = lit "Context:" ++ [LF] ++ ctx ++ [LF; LF]
          ++ lit "Question:" ++ [LF] ++ prompt) /\
  (forall prompt, finalPrompt prompt [] = prompt) /\
  finalPrompt (lit "Q") (lit "X")
  = [67; 111; 110; 116; 101; 120; 116; 58; 10; 88; 10; 10;
     81; 117; 101; 115; 116; 105; 111; 110; 58; 10; 81]%N /\
  finalPrompt (lit "Q") [] = [81]%N /\
  (forall env prompt ctx,
      generate_text env (finalPrompt prompt ctx)
      = ([GenerateCall model_id (finalPrompt prompt ctx)],
         generateText env model_id (finalPrompt prompt ctx))) /\
  (forall prompt ctx,
      settled (scrape_urls (page_with ctx) [url_a]) = Fulfilled ctx /\
      step (page_with ctx) (Scraping prompt [url_a])
           (Generating (finalPrompt prompt ctx)) /\
      fst (next (page_with ctx) (Generating (finalPrompt prompt ctx)))
      = [GenerateCall model_id (finalPrompt prompt ctx)]) /\
  (forall env prompt urls ctx,
      extract_urls prompt = ret urls ->
      settled (scrape_urls env urls) = Fulfilled ctx ->
      calls (demoGenerate env prompt)
      = map scrape_call urls ++ [GenerateCall model_id (finalPrompt prompt ctx)]).
Proof.
  assert (One : forall ctx,
             settled (scrape_urls (page_with ctx) [url_a]) = Fulfilled ctx).
  { intros ctx. rewrite scrape_urls_eq. cbn [settled snd].
    destruct ctx as [|c ctx]; reflexivity. }
  split; [|split; [|split; [|split; [|split; [|split]]]]].
  - intros prompt ctx Hne. destruct ctx; [contradiction | reflexivity].
  - reflexivity.
  - reflexivity.
  - reflexivity.
  - reflexivity.
  - intros prompt ctx. split; [apply One|]. split; [|reflexivity].
    unfold step. cbn [next snd]. unfold step_run. now rewrite One.
  - intros env prompt urls ctx E Hs.
    now rewrite (demoGenerate_fulfilled_scrape env prompt urls ctx E Hs).
Qed.

(* ------------------------------------------------------------------ *)
(** ** The pipeline *)

(** C5. For a prompt without any URL-shaped substring, the extraction
    returns the empty sequence, the scrape step on it issues no call and
    is fulfilled with the empty context, and the only call of the whole
    job is the generation call. *)
Theorem C5_no_url_no_scrape env prompt :
  url_free prompt ->
  extract_urls prompt = ret [] /\
  scrape_urls env [] = ([], Fulfilled []) /\
  calls (demoGenerate env prompt) = [GenerateCall model_id prompt].
Proof.
  intros Hf. pose proof (url_free_extract prompt Hf) as E.
  split; [exact E|]. split; [reflexivity|].
  now rewrite (demoGenerate_fulfilled_scrape env prompt [] [] E eq_refl).
Qed.

Lemma C5_witness :
  url_free (lit "no links in here") /\
  extract_urls (lit "no links in here") = ret [] /\
  scrape_urls pages_found [] = ([], Fulfilled []) /\
  calls (demoGenerate pages_found (lit "no links in here"))
  = [GenerateCall model_id (lit "no links in here")].
Proof.
  split; [apply exec_None; reflexivity|].
  apply (C5_no_url_no_scrape pages_found (lit "no links in here")).
  apply exec_None; reflexivity.
Defined.

(** C7. The final prompt depends on the prompt and the aggregated context
    only: two runs, with any providers and any URLs, whose scrape steps
    are fulfilled with the same context for the same prompt enter the
    generation stage with the same final prompt and issue the same
    generation call. *)
Theorem C7_final_prompt_deterministic env1 env2 prompt urls1 urls2 ctx s1 s2 :
  settled (scrape_urls env1 urls1) = Fulfilled ctx ->
  settled (scrape_urls env2 urls2) = Fulfilled ctx ->
  step env1 (Scraping prompt urls1) s1 ->
  step env2 (Scraping prompt urls2) s2 ->
  s1 = Generating (finalPrompt prompt ctx) /\
  s2 = s1 /\
  fst (next env1 s1) = [GenerateCall model_id (finalPrompt prompt ctx)] /\
  fst (next env2 s2) = fst (next env1 s1).
Proof.
  unfold step. cbn [next snd]. unfold step_run.
  intros -> -> [= <-] [= <-]. repeat split.
Qed.

Lemma C7_witness :
  settled (scrape_urls pages_found [url_a]) = Fulfilled (lit "page") /\
  settled (scrape_urls model_down [url_b]) = Fulfilled (lit "page") /\
  step pages_found (Scraping two_url_prompt [url_a])
       (Generating (finalPrompt two_url_prompt (lit "page"))) /\
  step model_down (Scraping two_url_prompt [url_b])
       (Generating (finalPrompt two_url_prompt (lit "page"))) /\
  fst (next model_down (Generating (finalPrompt two_url_prompt (lit "page"))))
  = fst (next pages_found (Generating (finalPrompt two_url_prompt (lit "page")))).
Proof.
  repeat (split; [reflexivity|]).
  apply (C7_final_prompt_deterministic pages_found model_down two_url_prompt
           [url_a] [url_b] (lit "page")
           (Generating (finalPrompt two_url_prompt (lit "page")))
           (Generating (finalPrompt two_url_prompt (lit "page"))));
    reflexivity.
Defined.

(** C8. From the state [Generating] the only transitions are to [Done]
    and to the terminal failure; every transition moves forward in the
    sequence of the stages, so no state is reached again from itself;
    [Done] and [Failed] have no successor; and when the generation call
    is rejected the machine stops in [Failed] whatever the fuel, having
    issued the generation call and nothing after it: no extraction and
    no scrape is run again. *)
Theorem C8_generation_failure_is_terminal env :
  (forall final s',
      step env (Generating final) s' -> s' = Done \/ exists e, s' = Failed e) /\
  (forall s s', step env s s' -> rank s < rank s') /\
  (forall s s', clos_trans state (step env) s s' -> s' <> s) /\
  (forall s', ~ step env Done s') /\
  (forall e s', ~ step env (Failed e) s') /\
  (forall final e fuel,
      generateText env model_id final = Rejected e ->
      run env (S fuel) (Generating final)
      = ([GenerateCall model_id final], Failed e)).
Proof.
  repeat split.
  - intros final s'. unfold step. cbn [next snd]. unfold step_run.
    rewrite generate_text_eq. cbn [settled snd].
    destruct (generateText env model_id final); simpl; intros [= <-]; eauto.
  - apply step_rank.
  - intros s s' H E. apply steps_rank in H. rewrite E in H. lia.
  - intros s'. unfold step. simpl. discriminate.
  - intros e s'. unfold step. simpl. discriminate.
  - intros final e fuel H. cbn [run next]. unfold step_run.
    rewrite generate_text_eq. cbn [calls settled fst snd]. rewrite H.
    cbn [resume]. rewrite run_terminal; reflexivity.
Qed.

Lemma scrape_call_not_generate urls model final :
  ~ In (GenerateCall model final) (map scrape_call urls).
Proof.
  intros H. apply in_map_iff in H. destruct H as (u & H & _). discriminate.
Qed.

(** C10. In every run of the handler, whatever the scrapes do, the
    original prompt is a suffix of the prompt of every generation call;
    when every scrape is fulfilled, the generation call is issued; and
    when every scrape resolves with missing or empty markdown, the
    generation call is issued with exactly the original prompt, as for
    the two-URL prompt with pages that have no markdown. *)
Theorem C10_prompt_is_suffix_of_final_prompt :
  (forall env prompt,
      (forall model final,
          In (GenerateCall model final) (calls (demoGenerate env prompt)) ->
          ends_with prompt final) /\
      ((forall k url, exists d,
           firecrawl_scrape env k url [lit "markdown"] = Fulfilled d) ->
       exists final,
         In (GenerateCall model_id final) (calls (demoGenerate env prompt)) /\
         ends_with prompt final) /\
      ((forall k url, exists d,
           firecrawl_scrape env k url [lit "markdown"] = Fulfilled d /\
           (markdown d = None \/ markdown d = Some [])) ->
       exists urls,
         extract_urls prompt = ret urls /\
         calls (demoGenerate env prompt)
         = map scrape_call urls ++ [GenerateCall model_id prompt])) /\
  calls (demoGenerate pages_blank two_url_prompt)
  = [scrape_call url_a; scrape_call url_b; GenerateCall model_id two_url_prompt].
Proof.
  split; [|reflexivity].
  intros env prompt. destruct (extract_urls_scan prompt) as (urls & E & _).
  split; [|split].
  - intros model final Hin.
    destruct (settled (scrape_urls env urls)) as [ctx | e |] eqn:Hs.
    + rewrite (demoGenerate_fulfilled_scrape env prompt urls ctx E Hs) in Hin.
      cbn [calls fst] in Hin. apply in_app_or in Hin.
      destruct Hin as [Hin | [[= <- <-] | []]].
      * now apply scrape_call_not_generate in Hin.
      * apply finalPrompt_suffix.
    + destruct (demoGenerate_unfulfilled_scrape env prompt urls E) as [Hc _].
      { intros ctx. rewrite Hs. discriminate. }
      rewrite Hc in Hin. now apply scrape_call_not_generate in Hin.
    + destruct (demoGenerate_unfulfilled_scrape env prompt urls E) as [Hc _].
      { intros ctx. rewrite Hs. discriminate. }
      rewrite Hc in Hin. now apply scrape_call_not_generate in Hin.
  - intros Hall.
    assert (Hs : exists ctx, settled (scrape_urls env urls) = Fulfilled ctx).
    { rewrite scrape_urls_eq. cbn [settled snd].
      pose proof (all_fulfilled_results env Hall urls) as Hr.
      destruct (Hr 0) as (results & ->). rewrite all_outcomes_fulfilled. eauto. }
    destruct Hs as (ctx & Hs). exists (finalPrompt prompt ctx).
    rewrite (demoGenerate_fulfilled_scrape env prompt urls ctx E Hs).
    split; [|apply finalPrompt_suffix].
    cbn [calls fst]. apply in_or_app. right. now left.
  - intros Hall. exists urls. split; [exact E|].
    assert (Hs : settled (scrape_urls env urls) = Fulfilled []).
    { rewrite scrape_urls_eq. cbn [settled snd].
      rewrite all_empty_results, all_outcomes_fulfilled, aggregate_all_empty;
        [reflexivity|].
      intros i url. destruct (Hall i url) as (d & Hd & Hm).
      now apply scrape_no_content with d. }
    now rewrite (demoGenerate_fulfilled_scrape env prompt urls [] E Hs).
Qed.

(* ------------------------------------------------------------------ *)
(** ** Further properties of the scrape step and of the handler *)

Section Handler.

Variable env : providers.

(** The handler in one equation: the scrape calls of the extracted URLs,
    then the generation call if the scrape step is fulfilled. *)
Lemma demoGenerate_normal_form prompt urls :
  extract_urls prompt = ret urls ->
  demoGenerate env prompt
  = (map scrape_call urls
       ++ generation_calls prompt (settled (scrape_urls env urls)),
     handler_settles env prompt (settled (scrape_urls env urls))).
Proof.
  intros E. destruct (settled (scrape_urls env urls)) as [ctx | e |] eqn:Hs.
  - exact (demoGenerate_fulfilled_scrape env prompt urls ctx E Hs).
  - rewrite (demoGenerate_after_extract env _ _ E).
    rewrite scrape_urls_eq in *. cbn [settled snd] in Hs.
    destruct (all_outcomes _); try discriminate. injection Hs as ->.
    simpl. now rewrite app_nil_r.
  - rewrite (demoGenerate_after_extract env _ _ E).
    rewrite scrape_urls_eq in *. cbn [settled snd] in Hs.
    destruct (all_outcomes _); try discriminate.
    simpl. now rewrite app_nil_r.
Qed.

(** [Promise.all] is rejected only when an element is. *)
Lemma all_outcomes_rejected_inv {A} (rs : list (outcome A)) : forall e,
  all_outcomes rs = Rejected e -> exists e', In (Rejected e') rs.
Proof.
  induction rs as [|r rs IH]; intros e; simpl; [discriminate|].
  destruct r as [v | e0 |]; [| exists e0; now left |];
    (destruct (all_outcomes rs) as [vs | e1 |]; try discriminate;
     intros _; destruct (IH e1 eq_refl) as (e' & H); exists e'; now right).
Qed.

(** [Promise.all] stays pending when no element is rejected and one
    element never settles. *)
Lemma all_outcomes_pending {A} (rs : list (outcome A)) : forall k,
  (forall e, ~ In (Rejected e) rs) ->
  nth_error rs k = Some Pending ->
  all_outcomes rs = Pending.
Proof.
  intros k Hno Hk.
  destruct (all_outcomes rs) as [vs | e |] eqn:Ha; [| |reflexivity].
  - exfalso. revert k vs Hk Ha. clear Hno.
    induction rs as [|r rs IH]; intros [|k] vs; simpl; try discriminate.
    + intros [= ->]. destruct (all_outcomes rs); discriminate.
    + intros Hk. destruct r; try discriminate;
        destruct (all_outcomes rs) eqn:Hr; try discriminate.
      intros _. exact (IH k _ Hk eq_refl).
  - destruct (all_outcomes_rejected_inv rs e Ha) as (e' & H).
    now elim (Hno e').
Qed.

Lemma map_indexed_In {A B} (f : nat -> A -> B) xs : forall k0 y,
  In y (map_indexed f k0 xs) -> exists k x, y = f k x.
Proof.
  induction xs as [|x xs IH]; intros k0 y; simpl; [contradiction|].
  intros [<- | H]; [eauto | exact (IH _ _ H)].
Qed.

End Handler.

(** X1. The scrape step issues one scrape call per URL, in the order of
    the URLs and each with the format list [["markdown"]], whatever the
    scrapes do: also when some of them throw or never settle. *)
Theorem X1_scrape_calls_every_url env urls :
  calls (scrape_urls env urls) = map scrape_call urls /\
  length (calls (scrape_urls env urls)) = length urls.
Proof.
  rewrite scrape_urls_eq. cbn [calls fst]. split; [reflexivity|].
  apply length_map.
Qed.

(** X2. When the scrape of one of the extracted URLs throws, the scrape
    step is rejected whatever the other scrapes do, and so is the
    handler: all the scrape calls have been issued and no generation
    call is made. *)
Theorem X2_throwing_scrape_rejects_handler env prompt urls k url e :
  extract_urls prompt = ret urls ->
  nth_error urls k = Some url ->
  firecrawl_scrape env k url [lit "markdown"] = Rejected e ->
  exists e',
    scrape_urls env urls = (map scrape_call urls, Rejected e') /\
    demoGenerate env prompt = (map scrape_call urls, Rejected e').
Proof.
  intros E Hk He.
  destruct (scrape_rejection_rejects_step env urls k url e Hk He) as (e' & Hs).
  exists e'. split; [exact Hs|].
  rewrite (demoGenerate_normal_form env prompt urls E), Hs.
  simpl. now rewrite app_nil_r.
Qed.

Lemma X2_witness :
  extract_urls two_url_prompt = ret [url_a; url_b] /\
  nth_error [url_a; url_b] 1 = Some url_b /\
  firecrawl_scrape second_scrape_throws 1 url_b [lit "markdown"]
  = Rejected (lit "scrape failed") /\
  exists e',
    scrape_urls second_scrape_throws [url_a; url_b]
    = (map scrape_call [url_a; url_b], Rejected e') /\
    demoGenerate second_scrape_throws two_url_prompt
    = (map scrape_call [url_a; url_b], Rejected e').
Proof.
  repeat (split; [reflexivity|]).
  apply (X2_throwing_scrape_rejects_handler second_scrape_throws two_url_prompt
           [url_a; url_b] 1 url_b (lit "scrape failed")); reflexivity.
Defined.

(** X3. When no scrape throws and the scrape of one of the extracted URLs
    never settles, the scrape step never settles and neither does the
    handler: the scrape calls have been issued and the generation call
    is never made. *)
Theorem X3_hanging_scrape_blocks_generation env prompt urls k url :
  extract_urls prompt = ret urls ->
  (forall i u e, firecrawl_scrape env i u [lit "markdown"] <> Rejected e) ->
  nth_error urls k = Some url ->
  firecrawl_scrape env k url [lit "markdown"] = Pending ->
  scrape_urls env urls = (map scrape_call urls, Pending) /\
  demoGenerate env prompt = (map scrape_call urls, Pending).
Proof.
  intros E Hno Hk Hp.
  assert (Hs : scrape_urls env urls = (map scrape_call urls, Pending)).
  { rewrite scrape_urls_eq. f_equal.
    rewrite (all_outcomes_pending (map_indexed (scrape_settles env) 0 urls) k);
      [reflexivity | |].
    - intros e H. apply map_indexed_In in H. destruct H as (i & u & H).
      unfold scrape_settles in H.
      destruct (firecrawl_scrape env i u [lit "markdown"]) eqn:F;
        try discriminate. injection H as ->. exact (Hno i u _ F).
    - rewrite (nth_error_map_indexed (scrape_settles env) urls 0 k url Hk).
      simpl. unfold scrape_settles. now rewrite Hp. }
  split; [exact Hs|].
  rewrite (demoGenerate_normal_form env prompt urls E), Hs.
  simpl. now rewrite app_nil_r.
Qed.

Lemma X3_witness :
  extract_urls two_url_prompt = ret [url_a; url_b] /\
  nth_error [url_a; url_b] 0 = Some url_a /\
  firecrawl_scrape first_scrape_hangs 0 url_a [lit "markdown"] = Pending /\
  scrape_urls first_scrape_hangs [url_a; url_b]
  = (map scrape_call [url_a; url_b], Pending) /\
  demoGenerate first_scrape_hangs two_url_prompt
  = (map scrape_call [url_a; url_b], Pending).
Proof.
  repeat (split; [reflexivity|]).
  apply (X3_hanging_scrape_blocks_generation first_scrape_hangs two_url_prompt
           [url_a; url_b] 0 url_a); try reflexivity.
  intros [|i] u e; discriminate.
Defined.

(** X4. In every run of the handler the calls are the scrape calls of the
    extracted URLs followed by at most one generation call, which is
    addressed to the model [claude-3-haiku-20240307]; the generation call
    is made exactly when the scrape step is fulfilled. *)
Theorem X4_calls_of_the_handler env prompt :
  exists urls tail,
    extract_urls prompt = ret urls /\
    calls (demoGenerate env prompt) = map scrape_call urls ++ tail /\
    (tail = [] \/
     exists final, tail = [GenerateCall (lit "claude-3-haiku-20240307") final]) /\
    (tail <> [] <-> exists ctx, settled (scrape_urls env urls) = Fulfilled ctx).
Proof.
  destruct (extract_urls_scan prompt) as (urls & E & _).
  exists urls, (generation_calls prompt (settled (scrape_urls env urls))).
  rewrite (demoGenerate_normal_form env prompt urls E). cbn [calls fst].
  split; [exact E|]. split; [reflexivity|].
  destruct (settled (scrape_urls env urls)) as [ctx | e |]; simpl.
  - split; [right; eauto|]. split; [eauto | discriminate].
  - split; [now left|]. split; [congruence|]. intros (ctx & H). discriminate.
  - split; [now left|]. split; [congruence|]. intros (ctx & H). discriminate.
Qed.

(** X5. The handler is fulfilled exactly when the scrape step and the
    generation call are both fulfilled, and it is rejected exactly with
    the error of the scrape step or, after a fulfilled scrape step, with
    the error of the generation call: errors are passed on as they are. *)
Theorem X5_outcome_of_the_handler env prompt :
  exists urls,
    extract_urls prompt = ret urls /\
    (settled (demoGenerate env prompt) = Fulfilled tt <->
     exists ctx text,
       settled (scrape_urls env urls) = Fulfilled ctx /\
       generateText env model_id (finalPrompt prompt ctx) = Fulfilled text) /\
    (forall e,
        settled (demoGenerate env prompt) = Rejected e <->
        settled (scrape_urls env urls) = Rejected e \/
        exists ctx,
          settled (scrape_urls env urls) = Fulfilled ctx /\
          generateText env model_id (finalPrompt prompt ctx) = Rejected e).
Proof.
  destruct (extract_urls_scan prompt) as (urls & E & _).
  exists urls. split; [exact E|].
  rewrite (demoGenerate_normal_form env prompt urls E). cbn [settled snd].
  destruct (settled (scrape_urls env urls)) as [ctx | e0 |]; cbn [handler_settles].
  - destruct (generateText env model_id (finalPrompt prompt ctx))
      as [text | e1 |] eqn:G; split.
    + split; [eauto | reflexivity].
    + intros e. split; [discriminate|].
      intros [H | (c & [= <-] & H)]; congruence.
    + split; [discriminate|]. intros (c & t & [= <-] & H). congruence.
    + intros e. split.
      * intros [= ->]. right. eauto.
      * intros [H | (c & [= <-] & H)]; congruence.
    + split; [discriminate|]. intros (c & t & [= <-] & H). congruence.
    + intros e. split; [discriminate|].
      intros [H | (c & [= <-] & H)]; congruence.
  - split.
    + split; [discriminate|]. intros (c & t & H & _). discriminate.
    + intros e. split; [intros [= ->]; now left|].
      intros [H | (c & H & _)]; congruence.
  - split.
    + split; [discriminate|]. intros (c & t & H & _). discriminate.
    + intros e. split; [discriminate|].
      intros [H | (c & H & _)]; discriminate.
Qed.

(** X6. The handler only scrapes URLs that are written in the prompt:
    the URL of every scrape call occurs as a substring of the prompt,
    starts with [http://] or [https://] and contains no whitespace, and
    every scrape call asks for the format [markdown] only. *)
Theorem X6_only_urls_of_the_prompt_are_scraped env prompt url formats :
  In (ScrapeCall url formats) (calls (demoGenerate env prompt)) ->
  formats = [lit "markdown"] /\
  substring url prompt /\
  (starts_with (lit "http://") url \/ starts_with (lit "https://") url) /\
  Forall nonwhite url.
Proof.
  destruct (extract_urls_scan prompt) as (urls & E & Hs).
  rewrite (demoGenerate_normal_form env prompt urls E). cbn [calls fst].
  intros Hin. apply in_app_or in Hin. destruct Hin as [Hin | Hin].
  - apply in_map_iff in Hin. destruct Hin as (u & [= -> ->] & Hu).
    split; [reflexivity|].
    pose proof (UrlScan_tokens _ _ Hs) as Ht.
    rewrite Forall_forall in Ht. destruct (Ht url Hu) as [Htok Hsub].
    destruct (url_token_shape url Htok) as [Hp Hw]. auto.
  - destruct (settled (scrape_urls env urls)); simpl in Hin;
      try contradiction. destruct Hin as [H | []]. discriminate.
Qed.

Lemma X6_witness :
  In (ScrapeCall url_b [lit "markdown"])
     (calls (demoGenerate model_down two_url_prompt)) /\
  [lit "markdown"] = [lit "markdown"] /\
  substring url_b two_url_prompt /\
  (starts_with (lit "http://") url_b \/ starts_with (lit "https://") url_b) /\
  Forall nonwhite url_b.
Proof.
  split; [right; left; reflexivity|].
  apply (X6_only_urls_of_the_prompt_are_scraped model_down two_url_prompt
           url_b [lit "markdown"]).
  right; left; reflexivity.
Defined.

(* ------------------------------------------------------------------ *)
(** ** Further properties of the aggregation and of the final prompt *)

Section Context.

Lemma drop_empty_filter xs : drop_empty xs = filter truthy xs.
Proof.
  induction xs as [|x xs IH]; simpl; [reflexivity|].
  destruct x; simpl; now rewrite IH.
Qed.

Lemma drop_empty_nil xs : drop_empty xs = [] <-> Forall (fun r => r = []) xs.
Proof.
  induction xs as [|x xs IH]; simpl; [split; auto|].
  destruct x as [|c x]; simpl.
  - rewrite IH. split; [now constructor | now inversion 1].
  - split; [discriminate | inversion 1; discriminate].
Qed.

Lemma drop_empty_app xs ys : drop_empty (xs ++ ys) = drop_empty xs ++ drop_empty ys.
Proof.
  induction xs as [|x xs IH]; simpl; [reflexivity|].
  destruct x; simpl; now rewrite IH.
Qed.

Lemma drop_empty_kept xs : Forall (fun r => r <> []) (drop_empty xs).
Proof.
  induction xs as [|x xs IH]; simpl; [constructor|].
  destruct x; [assumption | constructor; [discriminate | assumption]].
Qed.

Lemma separated_by_nil sep xs :
  Forall (fun r => r <> []) xs -> separated_by sep xs = [] -> xs = [].
Proof.
  intros H. destruct H as [|x xs Hx _]; [reflexivity|].
  rewrite separated_by_cons. intros E. apply app_eq_nil in E.
  now destruct E.
Qed.

Lemma aggregate_nil results :
  aggregate results = [] <-> Forall (fun r => r = []) results.
Proof.
  unfold aggregate. rewrite filter_Boolean_drop_empty, join_separated_by.
  rewrite <- drop_empty_nil. split.
  - apply separated_by_nil, drop_empty_kept.
  - now intros ->.
Qed.

Lemma separated_by_app sep xs ys :
  xs <> [] -> ys <> [] ->
  separated_by sep (xs ++ ys) = separated_by sep xs ++ sep ++ separated_by sep ys.
Proof.
  intros Hx Hy. destruct xs as [|x xs]; [contradiction|].
  destruct ys as [|y ys]; [contradiction|].
  cbn [app]. rewrite !separated_by_cons, map_app, concat_app. simpl.
  now rewrite <- !app_assoc.
Qed.

Lemma context_template_length ctx prompt :
  length (context_template ctx prompt) = length ctx + length prompt + 21.
Proof.
  unfold context_template. rewrite !length_app. simpl. lia.
Qed.

Lemma finalPrompt_unchanged prompt ctx : finalPrompt prompt ctx = prompt <-> ctx = [].
Proof.
  split; [|now intros ->].
  destruct ctx as [|c ctx]; [reflexivity|]. unfold finalPrompt. cbn [truthy].
  intros E. apply (f_equal (@length char16)) in E.
  rewrite context_template_length in E. lia.
Qed.

Lemma total_length_app xs ys :
  total_length (xs ++ ys) = total_length xs + total_length ys.
Proof. unfold total_length. now rewrite map_app, list_sum_app. Qed.

Lemma total_length_drop_empty xs : total_length (drop_empty xs) = total_length xs.
Proof.
  induction xs as [|x xs IH]; [reflexivity|].
  destruct x as [|c x]; [exact IH|].
  change (drop_empty ((c :: x) :: xs)) with ((c :: x) :: drop_empty xs).
  unfold total_length in *. simpl. now rewrite IH.
Qed.

Lemma separated_tail_length sep xs :
  length (concat (map (fun y => sep ++ y) xs))
  = length sep * length xs + total_length xs.
Proof.
  induction xs as [|x xs IH]; simpl; [now rewrite Nat.mul_0_r|].
  rewrite !length_app, IH. unfold total_length. simpl. lia.
Qed.

End Context.

(** X7. The context header is added exactly when some scrape has returned
    content: the final prompt built from the aggregation of the results
    is the original prompt if and only if every result is empty. *)
Theorem X7_prompt_unchanged_iff_no_content prompt results :
  finalPrompt prompt (aggregate results) = prompt <->
  Forall (fun r => r = []) results.
Proof.
  split; intros H.
  - apply aggregate_nil. now apply finalPrompt_unchanged in H.
  - apply finalPrompt_unchanged. now apply aggregate_nil.
Qed.

(** X8. Aggregating two lists of results one after the other: when one of
    the two aggregations is empty the result is the other one, and
    otherwise it is the two aggregations with one blank line between
    them. *)
Theorem X8_aggregate_of_concatenation xs ys :
  aggregate (xs ++ ys)
  = match aggregate xs, aggregate ys with
    | [], b => b
    | a, [] => a
    | a, b => a ++ [LF; LF] ++ b
    end.
Proof.
  assert (H : forall zs, aggregate zs = separated_by [LF; LF] (drop_empty zs)).
  { intros zs. unfold aggregate.
    now rewrite filter_Boolean_drop_empty, join_separated_by. }
  assert (N : forall zs, aggregate zs = [] -> drop_empty zs = []).
  { intros zs Hz. now apply aggregate_nil, drop_empty_nil in Hz. }
  destruct (aggregate xs) as [|a xa] eqn:Ex.
  - rewrite H, drop_empty_app, (N xs Ex). simpl. now rewrite <- H.
  - destruct (aggregate ys) as [|b yb] eqn:Ey.
    + rewrite H, drop_empty_app, (N ys Ey), app_nil_r. now rewrite <- H.
    + rewrite H, drop_empty_app, separated_by_app, <- !H, Ex, Ey;
        [reflexivity | |].
      * intros Hd. rewrite H, Hd in Ex. discriminate.
      * intros Hd. rewrite H, Hd in Ey. discriminate.
Qed.

(** X9. The size of the aggregated context: the code units of all the
    results, and two more for each of the blank lines between the
    non-empty results. *)
Theorem X9_length_of_the_aggregation results :
  length (aggregate results)
  = total_length results + 2 * (length (filter truthy results) - 1).
Proof.
  unfold aggregate. rewrite filter_Boolean_drop_empty, join_separated_by.
  rewrite <- drop_empty_filter, <- (total_length_drop_empty results).
  destruct (drop_empty results) as [|x xs]; [reflexivity|].
  rewrite separated_by_cons, length_app, separated_tail_length.
  unfold total_length, list_sum, jsstring. cbn [map fold_right length]. lia.
Qed.

(* ------------------------------------------------------------------ *)
(** ** Further properties of the URL extraction *)

Section Tokens.

Lemma url_free_nil : url_free [].
Proof. apply exec_None. reflexivity. Qed.

Lemma url_token_head u : url_token u -> exists t, u = 104%N :: t.
Proof.
  intros (sch & run & -> & [-> | ->] & _); eexists; reflexivity.
Qed.

Lemma url_token_length u : url_token u -> 8 <= length u.
Proof.
  intros (sch & run & -> & Hsch & Hne & _). rewrite length_app.
  destruct run; [contradiction|]. destruct Hsch as [-> | ->]; simpl; lia.
Qed.

(** A URL token does not reach across a whitespace. *)
Lemma starts_before_white t w q :
  is_whitespace w = true -> url_starts (t ++ w :: q) -> url_starts t.
Proof.
  intros Hw (u & r & E & Hu).
  destruct (app_eq_app _ _ _ _ E) as (l & [[-> _] | [-> El]]).
  - now apply token_starts.
  - destruct l as [|c l].
    + rewrite app_nil_r in Hu. exists t, []. now rewrite app_nil_r.
    + injection El as <- _. destruct (url_token_shape _ Hu) as [_ Hn].
      apply Forall_app in Hn. destruct Hn as [_ Hn].
      inversion Hn as [|? ? Hc _]; subst. unfold nonwhite in Hc. congruence.
Qed.

Lemma no_start_at_nil : ~ url_starts [].
Proof.
  intros (u & r & E & Hu). symmetry in E. apply app_eq_nil in E.
  destruct E as [-> _]. now apply url_token_nonempty in Hu.
Qed.

(** The scan of a token alone is the token. *)
Lemma token_scan u : url_token u -> UrlScan u [u].
Proof.
  intros Hu. pose proof (scan_token [] u [] []) as H.
  simpl in H. rewrite app_nil_r in H. apply H; [| assumption | exact I |].
  - intros p1 p2 E. symmetry in E. apply app_eq_nil in E. now destruct E.
  - apply scan_done, url_free_nil.
Qed.

(** Every element of a scan is followed by a whitespace or by the end. *)
Lemma UrlScan_delimited s us :
  UrlScan s us ->
  Forall (fun u => url_token u /\
                   exists pre post, s = pre ++ u ++ post /\ stops post) us.
Proof.
  induction 1 as [s Hfree | pre u rest us L Hu Hr Hscan IH]; constructor.
  - split; [assumption | now exists pre, rest].
  - eapply Forall_impl; [|exact IH]. intros v [Hv (a & b & -> & Hb)].
    split; [assumption|]. exists (pre ++ u ++ a), b.
    split; [now rewrite <- !app_assoc | assumption].
Qed.

(** A prefix in which no token begins does not change the scan. *)
Lemma scan_prepend pre s us :
  UrlScan s us ->
  (forall p1 p2, pre = p1 ++ p2 -> p2 <> [] -> ~ url_starts (p2 ++ s)) ->
  UrlScan (pre ++ s) us.
Proof.
  intros Hs Hpre. destruct Hs as [s Hfree | pre0 u rest us L Hu Hr Hscan].
  - apply scan_done. intros a suf E Hsuf.
    destruct (app_eq_app _ _ _ _ E) as (l & [[-> El] | [-> El]]).
    + destruct l as [|c l].
      * simpl in El. subst suf. now apply (Hfree [] s eq_refl).
      * apply (Hpre a (c :: l) eq_refl); [discriminate|]. now rewrite <- El.
    + now apply (Hfree l suf El).
  - rewrite app_assoc. apply scan_token; auto.
    intros p1 p2 E Hne.
    destruct (app_eq_app _ _ _ _ E) as (l & [[-> El] | [-> El]]).
    + destruct l as [|c l].
      * simpl in El. subst p2. now apply (L [] pre0 eq_refl).
      * rewrite El, <- app_assoc.
        apply (Hpre p1 (c :: l) eq_refl). discriminate.
    + now apply (L l p2 El).
Qed.

(** The scan of two texts with a whitespace between them is the scan of
    the first one followed by the scan of the second one. *)
Lemma scan_split w p2 us2 p1 us1 :
  is_whitespace w = true ->
  UrlScan p2 us2 -> UrlScan p1 us1 ->
  UrlScan (p1 ++ w :: p2) (us1 ++ us2).
Proof.
  intros Hw H2. induction 1 as [s Hfree | pre u rest us L Hu Hr Hscan IH].
  - simpl. change (s ++ w :: p2) with (s ++ [w] ++ p2). rewrite app_assoc.
    apply scan_prepend; [exact H2|].
    intros a b E Hne Hs.
    destruct (@exists_last _ b Hne) as (t & z & ->).
    rewrite app_assoc in E. apply app_inj_tail in E. destruct E as [E <-].
    rewrite <- app_assoc in Hs. simpl in Hs.
    apply (starts_before_white t w p2 Hw) in Hs.
    exact (Hfree a t E Hs).
  - rewrite <- !app_assoc. simpl. apply scan_token; auto.
    + intros a b E Hne Hs.
      rewrite !app_assoc in Hs. apply (starts_before_white _ w p2 Hw) in Hs.
      rewrite <- !app_assoc in Hs. now apply (L a b E).
    + destruct rest; simpl in *; assumption.
Qed.

(** The size of a scan. *)
Lemma UrlScan_size s us :
  UrlScan s us ->
  9 * length us <= length s + 1 /\
  (stops s -> 9 * length us <= length s) /\
  total_length us <= length s.
Proof.
  induction 1 as [s Hfree | pre u rest us L Hu Hr Hscan (IH1 & IH2 & IH3)].
  - simpl. unfold total_length. simpl. lia.
  - pose proof (url_token_length u Hu) as Hl. specialize (IH2 Hr).
    rewrite !length_app. unfold total_length in *. simpl.
    split; [lia|]. split; [|lia].
    intros Hst. destruct pre as [|c pre]; [|simpl; lia].
    exfalso. destruct (url_token_head u Hu) as (t & ->). simpl in Hst.
    discriminate.
Qed.

End Tokens.

Lemma scan_extract s us : UrlScan s us -> extract_urls s = ret us.
Proof.
  intros Hs. destruct (extract_urls_scan s) as (urls & E & Hu).
  now rewrite E, (UrlScan_unique s urls Hu us Hs).
Qed.

(** X10. Every extracted URL is followed in the prompt by a whitespace or
    by the end of the prompt, so a comma or a bracket written right after
    a URL belongs to it; and extracting from an extracted URL alone gives
    this URL back. *)
Theorem X10_extracted_urls_are_delimited_and_stable prompt :
  exists urls,
    extract_urls prompt = ret urls /\
    Forall (fun u =>
              (exists pre post, prompt = pre ++ u ++ post /\ stops post) /\
              extract_urls u = ret [u]) urls.
Proof.
  destruct (extract_urls_scan prompt) as (urls & E & Hs).
  exists urls. split; [exact E|].
  eapply Forall_impl; [|exact (UrlScan_delimited _ _ Hs)].
  intros u [Hu Hd]. split; [exact Hd|].
  apply scan_extract, token_scan, Hu.
Qed.

(** X11. A URL never reaches across a whitespace: the URLs of two texts
    joined by a whitespace character are the URLs of the first text
    followed by the URLs of the second one. *)
Theorem X11_extraction_splits_at_whitespace p1 w p2 :
  is_whitespace w = true ->
  exists us1 us2,
    extract_urls p1 = ret us1 /\
    extract_urls p2 = ret us2 /\
    extract_urls (p1 ++ w :: p2) = ret (us1 ++ us2).
Proof.
  intros Hw.
  destruct (extract_urls_scan p1) as (us1 & E1 & H1).
  destruct (extract_urls_scan p2) as (us2 & E2 & H2).
  exists us1, us2. split; [exact E1|]. split; [exact E2|].
  apply scan_extract, scan_split; assumption.
Qed.

Lemma X11_witness :
  is_whitespace 10%N = true /\
  exists us1 us2,
    extract_urls (lit "See https://a.test") = ret us1 /\
    extract_urls (lit "https://b.test now") = ret us2 /\
    extract_urls (lit "See https://a.test" ++ 10%N :: lit "https://b.test now")
    = ret (us1 ++ us2).
Proof.
  split; [reflexivity|].
  apply (X11_extraction_splits_at_whitespace
           (lit "See https://a.test") 10%N (lit "https://b.test now")).
  reflexivity.
Defined.

(** X12. The number of extracted URLs is bounded by the size of the
    prompt: a URL has at least eight code units and two URLs are
    separated by at least one whitespace, so nine times the number of
    URLs is at most the length of the prompt plus one, and the URLs
    together are not longer than the prompt. The scrape step issues this
    number of calls. *)
Theorem X12_number_of_urls_is_bounded env prompt :
  exists urls,
    extract_urls prompt = ret urls /\
    Forall (fun u => 8 <= length u) urls /\
    9 * length urls <= length prompt + 1 /\
    total_length urls <= length prompt /\
    9 * length (calls (scrape_urls env urls)) <= length prompt + 1.
Proof.
  destruct (extract_urls_scan prompt) as (urls & E & Hs).
  exists urls. split; [exact E|].
  destruct (UrlScan_size _ _ Hs) as (H1 & _ & H3).
  split; [|split; [exact H1 | split; [exact H3|]]].
  - eapply Forall_impl; [|exact (UrlScan_tokens _ _ Hs)].
    intros u [Hu _]. now apply url_token_length.
  - rewrite scrape_urls_eq. cbn [calls fst]. now rewrite length_map.
Qed.

(** X13. What [URL_REGEX] matches at a given place: the backtracking
    matcher succeeds exactly on a scheme [http://] or [https://] followed
    by at least one character that is not a whitespace, and what it
    leaves unread starts with a whitespace or is empty; a scheme with
    nothing after it is not a match. *)
Theorem X13_anchored_match_of_URL_REGEX :
  (forall s e,
      match_here URL_REGEX s = Some e <->
      exists sch run,
        scheme sch /\ s = sch ++ run ++ e /\ run <> [] /\
        Forall nonwhite run /\ stops e) /\
  (forall sch rest, scheme sch -> stops rest ->
      match_here URL_REGEX (sch ++ rest) = None).
Proof.
  split; [exact match_here_spec|].
  intros sch rest Hsch Hst. rewrite match_here_URL.
  assert (E : strip_scheme (sch ++ rest) = Some rest)
    by (apply strip_scheme_spec; eauto).
  rewrite E, plus_NotWhite.
  destruct rest as [|c rest]; [reflexivity|]. simpl in *. now rewrite Hst.
Qed.

(* ------------------------------------------------------------------ *)
(** ** The state machine and the handler *)

Section Halting.

Variable env : providers.

Lemma run_stable fuel : forall s n,
  3 <= rank s + fuel -> run env (fuel + n) s = run env fuel s.
Proof.
  induction fuel as [|fuel IH]; intros s n Hr.
  - simpl in *. destruct s; simpl in Hr; try lia;
      apply run_terminal; reflexivity.
  - cbn [Nat.add run]. destruct (next env s) as [l [s'|]] eqn:E; [|reflexivity].
    assert (Hs : step env s s') by (unfold step; now rewrite E).
    apply step_rank in Hs. rewrite IH; [reflexivity | lia].
Qed.

End Halting.

(** X14. The state machine runs the handler and halts: from
    [ExtractingURLs] it never makes more than three transitions, the
    calls it issues are the calls of the handler in the same order, and
    it ends in [Done] exactly when the handler is fulfilled and in
    [Failed] with the same error exactly when the handler is rejected. *)
Theorem X14_machine_runs_the_handler_and_halts env prompt :
  (forall n, run env (3 + n) (ExtractingURLs prompt)
             = run env 3 (ExtractingURLs prompt)) /\
  calls (demoGenerate env prompt) = fst (run env 3 (ExtractingURLs prompt)) /\
  (settled (demoGenerate env prompt) = Fulfilled tt <->
   snd (run env 3 (ExtractingURLs prompt)) = Done) /\
  (forall e, settled (demoGenerate env prompt) = Rejected e <->
   snd (run env 3 (ExtractingURLs prompt)) = Failed e).
Proof.
  split; [|exact (run_demoGenerate env prompt)].
  intros n. apply run_stable. simpl. lia.
Qed.

(* ------------------------------------------------------------------ *)
(** ** The demo page *)

Section Demo.

Import DemoPage.

(** X15. The handler of the button [Blocking] sends one POST to
    [/api/demo/blocking] and settles as this request does. The button is
    enabled again exactly when the request is fulfilled: when the request
    fails or never settles the cell [loading] stays set, so the button
    stays disabled and keeps the label [Loading...]. The cell of the
    other button is never touched. The handler of the button [Background]
    behaves in the same way with [/api/demo/background] and its own
    cell. *)
Theorem X15_button_is_released_only_by_a_fulfilled_request net c :
  (exists c',
      handleBlocking net c
      = ([Fetch (lit "/api/demo/blocking") (lit "POST")], c',
         net (Fetch (lit "/api/demo/blocking") (lit "POST"))) /\
      loadingBackground c' = loadingBackground c /\
      (disabled (blocking_button c') = false <->
       net (Fetch (lit "/api/demo/blocking") (lit "POST")) = Fulfilled tt) /\
      (disabled (blocking_button c') = true ->
       label (blocking_button c') = lit "Loading...")) /\
  (exists c',
      handleBackground net c
      = ([Fetch (lit "/api/demo/background") (lit "POST")], c',
         net (Fetch (lit "/api/demo/background") (lit "POST"))) /\
      loading c' = loading c /\
      (disabled (background_button c') = false <->
       net (Fetch (lit "/api/demo/background") (lit "POST")) = Fulfilled tt) /\
      (disabled (background_button c') = true ->
       label (background_button c') = lit "Loading...")).
Proof.
  split.
  - unfold handleBlocking, andThen, setLoading, fetch. cbn [loadingBackground].
    destruct (net (Fetch (lit "/api/demo/blocking") (lit "POST")))
      as [[] | e |]; eexists; (split; [reflexivity|]);
      cbn [loading loadingBackground blocking_button disabled label];
      repeat split; congruence.
  - unfold handleBackground, andThen, setLoadingBackground, fetch.
    cbn [loading].
    destruct (net (Fetch (lit "/api/demo/background") (lit "POST")))
      as [[] | e |]; eexists; (split; [reflexivity|]);
      cbn [loading loadingBackground background_button disabled label];
      repeat split; congruence.
Qed.

End Demo.
